(** * The dialog store of the ComfyUI frontend ([src/stores/dialogStore.ts])

    A shallow embedding of the Pinia store that keeps the stack of open
    dialogs, followed by the properties of its public operations
    ([showDialog], [showExtensionDialog], [riseDialog], [closeDialog],
    [isDialogOpen]).  A second part embeds the closure of the context-menu
    filter ([src/extensions/core/contextMenuFilter.ts]) and states what
    its keyboard and input handlers keep true.

    Modelling conventions.
    - The store is a record threaded through every function (explicit state
      passing); each function of the source that mutates [dialogStack] or
      [activeKey] becomes a function [Store -> Store].
    - A JS array is a [list]; [findIndex], [find] and [indexOf] are stdpp's
      [list_find], which yields the index together with the element.
    - Object identity ([dialog === topDialog], [indexOf(targetDialog)]) is
      the position of the object in the array: every entry object is created
      once by [createDialog] and only ever moved by [splice], so the array
      never holds one object twice.
    - [priority] is a JS [number].  The store only compares priorities
      with [<=]; a number other than NaN is represented by an integer in
      the order of the numbers, and NaN is kept as a value of its own,
      because [<=] is false whenever one of its sides is NaN.
    - Caller-supplied callbacks ([onClose]) are opaque handles; invoking one
      appends its handle to the store's [onCloseCalls] trace.  Callbacks are
      assumed not to call back into the store while it is running.
    - The closures that [createDialog] installs on every entry
      ([onMaximize], [onUnmaximize], [onAfterHide], [pt.root.onMousedown])
      are determined by the entry itself and are not stored: [onAfterHide]
      is [closeDialog] and [onMousedown] is [riseDialog] on the entry's key,
      [onMaximize] and [onUnmaximize] only write the entry's [maximized]
      flag. *)

From stdpp Require Import base numbers option list sorting strings.
From Stdlib Require Import ZArith Lia.
From Stdlib Require Import Ascii.
From Stdlib Require String.

Local Open Scope Z_scope.
Local Open Scope nat_scope.

(** ** JavaScript values *)

(** An optional property of a caller-supplied object literal: not an own
    property at all, or an own property whose value may be [undefined]. *)
Inductive field (A : Type) : Type :=
  | absent : field A
  | own (v : option A) : field A.
Arguments absent {A}.
Arguments own {A} v.

(** [{ name: dflt, ...o }]: an own property of [o] wins over the default. *)
Definition spread {A} (dflt : option A) (f : field A) : option A :=
  match f with
  | absent => dflt
  | own v => v
  end.

(** [!!v] for an optional boolean. *)
Definition truthy (v : option bool) : bool :=
  match v with
  | Some b => b
  | None => false
  end.

(** A JS [number] as far as the store uses it: NaN, or a number that
    takes part in the order. *)
Inductive number : Type :=
  | NaN
  | Num (z : Z).

(** [a <= b] of JS: false as soon as one side is NaN. *)
Definition number_le (a b : number) : Prop :=
  match a, b with
  | Num x, Num y => (x ≤ y)%Z
  | _, _ => False
  end.

(** [a < b] of JS. *)
Definition number_lt (a b : number) : Prop :=
  match a, b with
  | Num x, Num y => (x < y)%Z
  | _, _ => False
  end.

#[global] Instance number_eq_dec : EqDecision number.
Proof. solve_decision. Defined.

#[global] Instance number_le_dec a b : Decision (number_le a b).
Proof. destruct a, b; simpl; apply _. Defined.

#[global] Instance number_lt_dec a b : Decision (number_lt a b).
Proof. destruct a, b; simpl; apply _. Defined.

(** [Array.prototype.splice(start, deleteCount, ...items)] for an index
    [0 <= start <= length]. *)
Definition splice {A} (start deleteCount : nat) (items l : list A) : list A :=
  take start l ++ items ++ drop (start + deleteCount) l.

(** [String.prototype.slice(from, to)] for [0 <= from <= to]: the result is
    cut short where the string ends. *)
Definition slice (from to : nat) (s : string) : string :=
  String.substring from (to - from) s.

(** ** Data model *)

Inductive DialogPosition : Type :=
  | center | top | bottom | left | right
  | topleft | topright | bottomleft | bottomright.

(** Opaque descriptors: a Vue component, a pass-through bag, a callback. *)
Definition Component : Type := string.
Definition DialogPassThroughOptions : Type := list (string * string).
Definition Callback : Type := string.

(** [CustomDialogComponentProps] as a caller writes it. *)
Record CustomDialogComponentProps : Type := mkCustomProps {
  given_maximizable : field bool;
  given_maximized : field bool;
  given_onClose : field Callback;
  given_closable : field bool;
  given_modal : field bool;
  given_position : field DialogPosition;
  given_pt : option DialogPassThroughOptions;
  given_closeOnEscape : field bool;
  given_dismissableMask : field bool
}.

(** [dialogComponentProps] as stored on an entry. *)
Record DialogComponentProps : Type := mkProps {
  maximizable : option bool;
  maximized : option bool;
  onClose : option Callback;
  closable : option bool;
  modal : option bool;
  position : option DialogPosition;
  pt : DialogPassThroughOptions;
  closeOnEscape : option bool;
  dismissableMask : option bool
}.

Record DialogInstance : Type := mkDialog {
  key : string;
  visible : bool;
  title : option string;
  headerComponent : option Component;
  component : Component;
  contentProps : list (string * string);
  footerComponent : option Component;
  dialogComponentProps : DialogComponentProps;
  priority : number
}.

Record ShowDialogOptions : Type := mkOptions {
  opt_key : option string;
  opt_title : option string;
  opt_headerComponent : option Component;
  opt_footerComponent : option Component;
  opt_component : Component;
  opt_props : option (list (string * string));
  opt_dialogComponentProps : option CustomDialogComponentProps;
  opt_priority : option number
}.

(** The store: [dialogStack], [activeKey], and the trace of the effects the
    store has on its surroundings ([onClose] calls and [console.error]
    lines, most recent first). *)
Record Store : Type := mkStore {
  dialogStack : list DialogInstance;
  activeKey : option string;
  onCloseCalls : list Callback;
  consoleErrors : list string
}.

Definition initialStore : Store :=
  {| dialogStack := []; activeKey := None;
     onCloseCalls := []; consoleErrors := [] |}.

(** Field updates. *)
Definition setStack (l : list DialogInstance) (s : Store) : Store :=
  {| dialogStack := l; activeKey := activeKey s;
     onCloseCalls := onCloseCalls s; consoleErrors := consoleErrors s |}.

Definition setActiveKey (k : option string) (s : Store) : Store :=
  {| dialogStack := dialogStack s; activeKey := k;
     onCloseCalls := onCloseCalls s; consoleErrors := consoleErrors s |}.

Definition invoke (cb : option Callback) (s : Store) : Store :=
  match cb with
  | Some f =>
      {| dialogStack := dialogStack s; activeKey := activeKey s;
         onCloseCalls := f :: onCloseCalls s;
         consoleErrors := consoleErrors s |}
  | None => s
  end.

Definition consoleError (msg : string) (s : Store) : Store :=
  {| dialogStack := dialogStack s; activeKey := activeKey s;
     onCloseCalls := onCloseCalls s; consoleErrors := msg :: consoleErrors s |}.

Definition setVisible (b : bool) (d : DialogInstance) : DialogInstance :=
  {| key := key d; visible := b; title := title d;
     headerComponent := headerComponent d; component := component d;
     contentProps := contentProps d; footerComponent := footerComponent d;
     dialogComponentProps := dialogComponentProps d;
     priority := priority d |}.

(** [dialog.dialogComponentProps = { ...dialog.dialogComponentProps,
    closeOnEscape: b }]. *)
Definition setCloseOnEscape (b : option bool) (d : DialogInstance)
  : DialogInstance :=
  let p := dialogComponentProps d in
  {| key := key d; visible := visible d; title := title d;
     headerComponent := headerComponent d; component := component d;
     contentProps := contentProps d; footerComponent := footerComponent d;
     dialogComponentProps :=
       {| maximizable := maximizable p; maximized := maximized p;
          onClose := onClose p; closable := closable p; modal := modal p;
          position := position p; pt := pt p; closeOnEscape := b;
          dismissableMask := dismissableMask p |};
     priority := priority d |}.

(** ** The key generator

    [Math.random().toString(36)] is the JS runtime's: it renders a number of
    [0, 1) in base 36 as ["0"] when the number is zero and as ["0."]
    followed by its fraction digits otherwise.  A draw of the random source
    is represented by that sequence of fraction digits. *)

Definition base36 : string := "0123456789abcdefghijklmnopqrstuvwxyz".

Definition digitChar (d : nat) : ascii :=
  default "0"%char (String.get d base36).

Fixpoint renderDigits (ds : list nat) : string :=
  match ds with
  | [] => EmptyString
  | d :: ds' => String (digitChar d) (renderDigits ds')
  end.

Definition toString36 (ds : list nat) : string :=
  match ds with
  | [] => "0"
  | _ => "0." +:+ renderDigits ds
  end.

(** [`dialog-${Math.random().toString(36).slice(2, 9)}`] *)
Definition genDialogKey (draw : list nat) : string :=
  "dialog-" +:+ slice 2 9 (toString36 draw).

Definition isBase36 (c : ascii) : Prop :=
  In c (String.list_ascii_of_string base36).

(** ** Operations of the store *)

(** [dialogStack.value.findIndex((d) => d.priority <= dialog.priority)],
    with [dialogStack.value.length] standing in for [-1]. *)
Definition insertIndex (dialog : DialogInstance) (stack : list DialogInstance)
  : nat :=
  default (length stack)
    (fst <$> list_find (λ d, number_le (priority d) (priority dialog)) stack).

Definition insertDialogByPriority (dialog : DialogInstance) (s : Store)
  : Store :=
  setStack
    (splice (insertIndex dialog (dialogStack s)) 0 [dialog] (dialogStack s))
    s.

Definition updateCloseOnEscapeStates (s : Store) : Store :=
  let topDialog :=
    list_find (λ d, Some (key d) = activeKey s) (dialogStack s) in
  let topClosable :=
    topDialog ≫= (λ t, closable (dialogComponentProps (snd t))) in
  setStack
    (imap (λ i dialog,
             setCloseOnEscape
               (Some (bool_decide (Some i = fst <$> topDialog)
                      && truthy topClosable))
               dialog)
          (dialogStack s))
    s.

Definition riseDialog (dialogKey : string) (s : Store) : Store :=
  match list_find (λ d, key d = dialogKey) (dialogStack s) with
  | Some (index, dialog) =>
      let s1 := setStack (splice index 1 [] (dialogStack s)) s in
      let s2 := insertDialogByPriority dialog s1 in
      let s3 := setActiveKey (Some dialogKey) s2 in
      updateCloseOnEscapeStates s3
  | None => s
  end.

(** [options] is [Some k] for [closeDialog({ key: k })] and [None] for
    [closeDialog()]. *)
Definition closeDialog (options : option string) (s : Store) : Store :=
  let wanted :=
    match options with
    | Some k => Some k
    | None => activeKey s
    end in
  match list_find (λ d, Some (key d) = wanted) (dialogStack s) with
  | None => s
  | Some (index, targetDialog) =>
      let s1 := invoke (onClose (dialogComponentProps targetDialog)) s in
      let s2 := setStack (splice index 1 [] (dialogStack s1)) s1 in
      let s3 := setActiveKey (key <$> last (dialogStack s2)) s2 in
      updateCloseOnEscapeStates s3
  end.

(** The object literal built by [createDialog]. *)
Definition newDialog (k : string) (options : ShowDialogOptions)
  : DialogInstance :=
  let given := opt_dialogComponentProps options in
  let prop {A} (dflt : option A)
        (get : CustomDialogComponentProps → field A) : option A :=
    match given with
    | Some g => spread dflt (get g)
    | None => dflt
    end in
  {| key := k;
     visible := true;
     title := opt_title options;
     headerComponent := opt_headerComponent options;
     footerComponent := opt_footerComponent options;
     component := opt_component options;
     contentProps := default [] (opt_props options);
     priority := default (Num 1) (opt_priority options);
     dialogComponentProps :=
       {| maximizable := prop (Some false) given_maximizable;
          modal := prop (Some true) given_modal;
          closable := prop (Some true) given_closable;
          closeOnEscape := prop (Some true) given_closeOnEscape;
          dismissableMask := prop (Some true) given_dismissableMask;
          onClose := prop None given_onClose;
          position := prop None given_position;
          maximized := Some false;
          pt := default [] (given ≫= given_pt) |} |}.

(** [createDialog] returns the object it built; what the caller sees
    through that reference is the entry as it stands in the stack, at the
    index where it was inserted. *)
Definition createDialog (k : string) (options : ShowDialogOptions) (s : Store)
  : Store * option DialogInstance :=
  let s1 :=
    if bool_decide (10 ≤ length (dialogStack s))
    then setStack (drop 1 (dialogStack s)) s
    else s in
  let dialog := newDialog k options in
  let s2 := insertDialogByPriority dialog s1 in
  let s3 := setActiveKey (Some k) s2 in
  let s4 := updateCloseOnEscapeStates s3 in
  (s4, dialogStack s4 !! insertIndex dialog (dialogStack s1)).

(** The part shared by [showDialog] and [showExtensionDialog] once an entry
    with the key exists: [dialog.visible = true; riseDialog(dialog)], and
    the reference [dialog] as result. *)
Definition reshow (index : nat) (dialog : DialogInstance) (s : Store)
  : Store * option DialogInstance :=
  let s1 := setStack (alter (setVisible true) index (dialogStack s)) s in
  let s2 := riseDialog (key dialog) s1 in
  (s2,
   dialogStack s2 !!
     insertIndex (setVisible true dialog) (delete index (dialogStack s1))).

(** [options.key || genDialogKey()] *)
Definition resolveKey (options : ShowDialogOptions) (draw : list nat)
  : string :=
  match opt_key options with
  | Some k => if bool_decide (k = "") then genDialogKey draw else k
  | None => genDialogKey draw
  end.

(** [draw] is what [Math.random()] yields should a key be generated. *)
Definition showDialog (options : ShowDialogOptions) (draw : list nat)
    (s : Store) : Store * option DialogInstance :=
  let dialogKey := resolveKey options draw in
  match list_find (λ d, key d = dialogKey) (dialogStack s) with
  | Some (index, dialog) => reshow index dialog s
  | None => createDialog dialogKey options s
  end.

Definition extensionKey (k : string) : string :=
  if String.prefix "extension-" k then k else "extension-" +:+ k.

Definition showExtensionDialog (options : ShowDialogOptions) (s : Store)
  : Store * option DialogInstance :=
  match opt_key options with
  | None => (consoleError "Extension dialog key is required" s, None)
  | Some k =>
      if bool_decide (k = "")
      then (consoleError "Extension dialog key is required" s, None)
      else
        let extKey := extensionKey k in
        match list_find (λ d, key d = extKey) (dialogStack s) with
        | None => createDialog extKey options s
        | Some (index, dialog) => reshow index dialog s
        end
  end.

Definition isDialogOpen (k : string) (s : Store) : bool :=
  bool_decide (Exists (λ d, key d = k) (dialogStack s)).

(** ** Runs of the store *)

Inductive Op : Type :=
  | Show (options : ShowDialogOptions) (draw : list nat)
  | ShowExtension (options : ShowDialogOptions)
  | Rise (k : string)
  | Close (options : option string).

Definition step (op : Op) (s : Store) : Store :=
  match op with
  | Show options draw => fst (showDialog options draw s)
  | ShowExtension options => fst (showExtensionDialog options s)
  | Rise k => riseDialog k s
  | Close options => closeDialog options s
  end.

Definition run (ops : list Op) (s : Store) : Store :=
  foldl (λ st op, step op st) s ops.

Inductive reachable : Store → Prop :=
  | reachable_init : reachable initialStore
  | reachable_step op s : reachable s → reachable (step op s).

Definition keys (s : Store) : list string := key <$> dialogStack s.

Definition priorities (s : Store) : list number := priority <$> dialogStack s.

(** ** Views of the operations used in the proofs *)

(** The stack once [dialog] has been spliced in at its [insertIndex]. *)
Definition placed (dialog : DialogInstance) (stack : list DialogInstance)
  : list DialogInstance :=
  take (insertIndex dialog stack) stack
    ++ dialog :: drop (insertIndex dialog stack) stack.

(** The entry [closeDialog] resolves, with its index. *)
Definition closeTarget (options : option string) (s : Store)
  : option (nat * DialogInstance) :=
  list_find
    (λ d, Some (key d) = match options with
                         | Some k => Some k
                         | None => activeKey s
                         end)
    (dialogStack s).

(** The stack [createDialog] inserts into: the old one, less its entry at
    index 0 when it is full. *)
Definition afterEviction (stack : list DialogInstance)
  : list DialogInstance :=
  if bool_decide (10 ≤ length stack) then drop 1 stack else stack.

(** A [show] request with the draw of its key generator, as an operation,
    and the key it works on. *)
Definition showOp (od : ShowDialogOptions * list nat) : Op :=
  Show (fst od) (snd od).

Definition shownKey (od : ShowDialogOptions * list nat) : string :=
  resolveKey (fst od) (snd od).

Definition defaultPriority (od : ShowDialogOptions * list nat) : Prop :=
  opt_priority (fst od) = None.

(** ** Predicates on stacks and stores *)

(** [a >= b] of JS. *)
Definition number_ge (a b : number) : Prop := number_le b a.

(** A list of priorities whose numbers are sorted highest first: a number
    is at least every number behind it, whatever NaN stand in between. *)
Definition descending (ps : list number) : Prop :=
  StronglySorted (λ a b, a = NaN ∨ b = NaN ∨ number_le b a) ps.

(** The stack is sorted by priority, read off adjacent entries with the
    comparison of JS: [stack[i].priority >= stack[i + 1].priority]. *)
Definition sortedByPriority (stack : list DialogInstance) : Prop :=
  ∀ i a b,
    stack !! i = Some a → stack !! S i = Some b →
    number_ge (priority a) (priority b).

(** No entry of the stack has the priority NaN. *)
Definition numeric (stack : list DialogInstance) : Prop :=
  Forall (λ d, priority d ≠ NaN) stack.

(** The entries whose priority is not NaN are sorted by priority: such an
    entry has at least the priority of every such entry behind it. *)
Definition numbersSorted (stack : list DialogInstance) : Prop :=
  ∀ i j a b,
    i < j → stack !! i = Some a → stack !! j = Some b →
    priority a ≠ NaN → priority b ≠ NaN →
    number_ge (priority a) (priority b).

(** An operation that does not pass NaN as a priority. *)
Definition numericOp (op : Op) : Prop :=
  match op with
  | Show options _ | ShowExtension options => opt_priority options ≠ Some NaN
  | Rise _ | Close _ => True
  end.

(** The active key names an entry of the stack, and there is none when the
    stack is empty. *)
Definition live (ks : list string) (a : option string) : Prop :=
  match a with
  | Some k => k ∈ ks
  | None => ks = []
  end.

Record wellFormed (s : Store) : Prop := mkWellFormed {
  wf_descending : descending (priorities s);
  wf_NoDup : NoDup (keys s);
  wf_named : "" ∉ keys s;
  wf_bounded : length (keys s) ≤ 10;
  wf_live : live (keys s) (activeKey s)
}.

Definition allDefault (s : Store) : Prop :=
  Forall (λ p, p = Num 1) (priorities s).

Definition escapes (d : DialogInstance) : Prop :=
  closeOnEscape (dialogComponentProps d) = Some true.

(** Every entry carries a boolean escape flag; at most one entry answers
    the Escape key, and that one is keyed by the active key and is
    closable. *)
Definition singleEscape (s : Store) : Prop :=
  ∀ i d,
    dialogStack s !! i = Some d →
    ∃ b,
      closeOnEscape (dialogComponentProps d) = Some b ∧
      (b = true →
         activeKey s = Some (key d) ∧
         closable (dialogComponentProps d) = Some true ∧
         ∀ j d', dialogStack s !! j = Some d' → escapes d' → j = i).

(** Two stacks hold the same entries in the same order and differ at most
    in the [closeOnEscape] flags, which every operation recomputes. *)
Definition sameEntries (l l' : list DialogInstance) : Prop :=
  setCloseOnEscape None <$> l = setCloseOnEscape None <$> l'.

(** [s'] is [s] without its entry at index 0 and with [d] inserted, and no
    [onClose] callback ran on the way. *)
Definition evictsFirst (s s' : Store) (d : DialogInstance) : Prop :=
  ∃ pre post,
    drop 1 (dialogStack s) = pre ++ post ∧
    sameEntries (dialogStack s') (pre ++ d :: post) ∧
    length (dialogStack s') = length (dialogStack s) ∧
    onCloseCalls s' = onCloseCalls s.

(** The shape the specification gives to a generated key: ["dialog-"] and
    six base-36 characters. *)
Definition sixCharKey (k : string) : Prop :=
  ∃ suffix,
    k = "dialog-" +:+ suffix ∧
    String.length suffix = 6 ∧
    Forall isBase36 (String.list_ascii_of_string suffix).

(** ** Sample requests and stores *)

(** Options with nothing but a key and a body component. *)
Definition plainOptions (k : string) : ShowDialogOptions :=
  {| opt_key := Some k; opt_title := None; opt_headerComponent := None;
     opt_footerComponent := None; opt_component := "Body";
     opt_props := None; opt_dialogComponentProps := None;
     opt_priority := None |}.

Definition withPriority (p : Z) (k : string) : ShowDialogOptions :=
  {| opt_key := Some k; opt_title := Some "title";
     opt_headerComponent := None; opt_footerComponent := None;
     opt_component := "Body"; opt_props := None;
     opt_dialogComponentProps := None; opt_priority := Some (Num p) |}.

Definition plainShow (k : string) : ShowDialogOptions * list nat :=
  (plainOptions k, []).

(** A small run: ["a"] at priority 1, ["b"] at priority 5, ["a"] clicked,
    ["c"] shown from an extension.  It ends with the stack
    [[b; extension-c; a]] and [extension-c] active. *)
Definition sampleRun : list Op :=
  [Show (plainOptions "a") []; Show (withPriority 5 "b") [];
   Rise "a"; ShowExtension (plainOptions "c")].

Definition sampleStore : Store := run sampleRun initialStore.

Definition sampleEntry : DialogInstance :=
  setCloseOnEscape (Some true)
    (newDialog "extension-c" (plainOptions "c")).

(** Ten dialogs shown one after the other. *)
Definition tenShows : list Op :=
  (λ k, Show (plainOptions k) [])
    <$> ["d1"; "d2"; "d3"; "d4"; "d5"; "d6"; "d7"; "d8"; "d9"; "d10"].

Definition fullStore : Store := run tenShows initialStore.

(** Three dialogs shown in a row, the second with the priority NaN. *)
Definition nanOptions (k : string) : ShowDialogOptions :=
  {| opt_key := Some k; opt_title := None; opt_headerComponent := None;
     opt_footerComponent := None; opt_component := "Body";
     opt_props := None; opt_dialogComponentProps := None;
     opt_priority := Some NaN |}.

Definition nanRun : list Op :=
  [Show (withPriority 1 "a") []; Show (nanOptions "n") [];
   Show (withPriority 0 "d") []].

Definition nanStore : Store := run nanRun initialStore.

(** The sample store with the [visible] flag of its entry ["a"] cleared.
    The operations of the store never clear the flag; whoever holds the
    entry, which [showDialog] hands out, can. *)
Definition hiddenStore : Store :=
  setStack (alter (setVisible false) 2 (dialogStack sampleStore)) sampleStore.

Definition sampleA : DialogInstance := newDialog "A" (withPriority 5 "A").

Definition sampleB : DialogInstance := newDialog "B" (withPriority 1 "B").

(** ** The context-menu filter ([src/extensions/core/contextMenuFilter.ts])

    The extension wraps [LiteGraph.ContextMenu]: a dark menu with more
    than four values gets a text input that filters its entries and moves
    a selection with the arrow keys.  The model holds what the closure
    holds: the entries found under the menu root ([items], with the
    inline styles the handlers write), the entries currently shown
    ([displayedItems], as positions in [items]: an entry is identified by
    its place there), [itemCount], [selectedIndex] and [selectedItem],
    together with the clicks and the close request the handlers issue.
    [String.prototype.toLocaleLowerCase] is the runtime's and is taken as
    a parameter [lower]; combo values are strings.  The pixel position of
    the list, which the handlers read back from the browser's layout, is
    not part of the model. *)

(** [s.includes(term)] *)
Fixpoint includes (s term : string) : bool :=
  String.prefix term s ||
  match s with
  | EmptyString => false
  | String _ s' => includes s' term
  end.

(** [array[index]] for a numeric index. *)
Definition lookupZ {A} (index : Z) (l : list A) : option A :=
  if bool_decide (index < 0)%Z then None else l !! Z.to_nat index.

(** [array.findIndex(P)], [-1] when nothing is found. *)
Definition findIndexZ {A} (P : A → Prop) `{∀ x, Decision (P x)} (l : list A)
  : Z :=
  match list_find P l with
  | Some (i, _) => Z.of_nat i
  | None => (-1)%Z
  end.

(** An inline style property: its value and whether it is [!important]. *)
Definition StyleProperty : Type := (string * bool)%type.

Record MenuItem : Type := mkMenuItem {
  textContent : option string;
  css_backgroundColor : StyleProperty;
  css_color : StyleProperty;
  css_display : string
}.

Definition setHighlight (bg fg : StyleProperty) (it : MenuItem) : MenuItem :=
  {| textContent := textContent it; css_backgroundColor := bg;
     css_color := fg; css_display := css_display it |}.

Definition setDisplay (v : string) (it : MenuItem) : MenuItem :=
  {| textContent := textContent it;
     css_backgroundColor := css_backgroundColor it;
     css_color := css_color it; css_display := v |}.

Record Menu : Type := mkMenu {
  items : list MenuItem;
  displayedItems : list nat;
  itemCount : Z;
  selectedIndex : Z;
  selectedItem : option nat;
  clicks : list nat;
  closed : bool
}.

Definition setSelectedIndex (index : Z) (m : Menu) : Menu :=
  {| items := items m; displayedItems := displayedItems m;
     itemCount := itemCount m; selectedIndex := index;
     selectedItem := selectedItem m; clicks := clicks m;
     closed := closed m |}.

(** [selectedItem?.style.setProperty(...)] on the entry at place [i]. *)
Definition styleAt (f : MenuItem → MenuItem) (i : option nat)
    (l : list MenuItem) : list MenuItem :=
  match i with
  | Some n => alter f n l
  | None => l
  end.

Definition updateSelected (m : Menu) : Menu :=
  let cleared := styleAt (setHighlight ("", false) ("", false))
                   (selectedItem m) (items m) in
  let selected := lookupZ (selectedIndex m) (displayedItems m) in
  {| items := styleAt (setHighlight ("#ccc", true) ("#000", true))
                selected cleared;
     displayedItems := displayedItems m;
     itemCount := itemCount m;
     selectedIndex := selectedIndex m;
     selectedItem := selected;
     clicks := clicks m;
     closed := closed m |}.

(** The [keydown] listener of the filter input; the boolean tells whether
    [event.preventDefault()] was called. *)
Definition onKeydown (key : string) (m : Menu) : Menu * bool :=
  if bool_decide (key = "ArrowUp") then
    (updateSelected
       (setSelectedIndex
          (if bool_decide (selectedIndex m = 0)%Z
           then (itemCount m - 1)%Z else (selectedIndex m - 1)%Z) m),
     true)
  else if bool_decide (key = "ArrowRight") then
    (updateSelected (setSelectedIndex (itemCount m - 1)%Z m), true)
  else if bool_decide (key = "ArrowDown") then
    (updateSelected
       (setSelectedIndex
          (if bool_decide (selectedIndex m = itemCount m - 1)%Z
           then 0%Z else (selectedIndex m + 1)%Z) m),
     true)
  else if bool_decide (key = "ArrowLeft") then
    (updateSelected (setSelectedIndex 0%Z m), true)
  else if bool_decide (key = "Enter") then
    ({| items := items m; displayedItems := displayedItems m;
        itemCount := itemCount m; selectedIndex := selectedIndex m;
        selectedItem := selectedItem m;
        clicks := match selectedItem m with
                  | Some i => i :: clicks m
                  | None => clicks m
                  end;
        closed := closed m |},
     false)
  else if bool_decide (key = "Escape") then
    ({| items := items m; displayedItems := displayedItems m;
        itemCount := itemCount m; selectedIndex := selectedIndex m;
        selectedItem := selectedItem m; clicks := clicks m;
        closed := true |},
     false)
  else (m, false).

(** [!term || item.textContent?.toLocaleLowerCase().includes(term)] *)
Definition isVisible (lower : string → string) (term : string)
    (it : MenuItem) : bool :=
  bool_decide (term = "") ||
  match textContent it with
  | Some t => includes (lower t) term
  | None => false
  end.

(** The [input] listener of the filter input, [value] being the text of
    the input. *)
Definition onInput (lower : string → string) (value : string) (m : Menu)
  : Menu :=
  let term := lower value in
  let shown :=
    fst <$> filter (λ p, isVisible lower term (snd p))
              (imap (λ i it, (i, it)) (items m)) in
  let index :=
    match selectedItem m with
    | Some i =>
        if bool_decide (i ∈ shown) then findIndexZ (λ d, d = i) shown
        else 0%Z
    | None => 0%Z
    end in
  updateSelected
    {| items :=
         (λ it, setDisplay
                  (if isVisible lower term it then "block" else "none") it)
           <$> items m;
       displayedItems := shown;
       itemCount := Z.of_nat (length shown);
       selectedIndex := index;
       selectedItem := selectedItem m;
       clicks := clicks m;
       closed := closed m |}.

(** A widget of the node under the pointer. *)
Record Widget : Type := mkWidget {
  w_type : string;
  w_values : option (list string);
  w_value : option string
}.

(** [w.options.values?.every((v, i) => v === values[i])] *)
Definition everyMatches (values : list string) (w : Widget) : bool :=
  match w_values w with
  | Some vs => forallb id (imap (λ i v, bool_decide (values !! i = Some v)) vs)
  | None => false
  end.

(** The value of the combo widget the menu was opened for; [widgets] is
    [None] when there is no current node or it has no widgets. *)
Definition clickedComboValue (values : list string)
    (widgets : option (list Widget)) : option string :=
  ws ← widgets;
  found ← list_find (λ w, everyMatches values w)
             (filter (λ w, w_type w = "combo" ∧
                           length <$> w_values w = Some (length values)) ws);
  w_value (snd found).

Definition initialIndex (values : list string)
    (widgets : option (list Widget)) : Z :=
  let selectedIndex :=
    match clickedComboValue values widgets with
    | Some v =>
        if bool_decide (v = "") then 0%Z
        else findIndexZ (λ x, x = v) values
    | None => 0%Z
    end in
  if bool_decide (selectedIndex < 0)%Z then 0%Z else selectedIndex.

(** [options?.className === 'dark' && values?.length > 4] *)
Definition addsFilter (className : option string)
    (values : option (list string)) : bool :=
  bool_decide (className = Some "dark") &&
  match values with
  | Some vs => bool_decide (4 < length vs)
  | None => false
  end.

(** The state of the closure once the first animation frame has run, for
    the entries [entries] found under the menu root. *)
Definition openMenu (entries : list MenuItem) (values : list string)
    (widgets : option (list Widget)) : Menu :=
  let displayed := seq 0 (length entries) in
  let index := initialIndex values widgets in
  updateSelected
    {| items := entries;
       displayedItems := displayed;
       itemCount := Z.of_nat (length displayed);
       selectedIndex := index;
       selectedItem := lookupZ index displayed;
       clicks := [];
       closed := false |}.

Inductive MenuEvent : Type :=
  | Keydown (key : string)
  | Input (value : string).

Definition menuStep (lower : string → string) (ev : MenuEvent) (m : Menu)
  : Menu :=
  match ev with
  | Keydown key => fst (onKeydown key m)
  | Input value => onInput lower value m
  end.

Definition menuRun (lower : string → string) (evs : list MenuEvent)
    (m : Menu) : Menu :=
  foldl (λ st ev, menuStep lower ev st) m evs.

(** The entry carries the highlight [updateSelected] paints. *)
Definition highlighted (it : MenuItem) : Prop :=
  css_backgroundColor it = ("#ccc", true) ∧ css_color it = ("#000", true).

(** ** Further notions used in the statements *)

(** The trace of [onClose] calls once the callback [cb], if there is one,
    has been called. *)
Definition calledBack (cb : option Callback) (calls : list Callback)
  : list Callback :=
  match cb with
  | Some f => f :: calls
  | None => calls
  end.

(** Every entry of the stack has [visible = true]. *)
Definition allVisible (l : list DialogInstance) : Prop :=
  Forall (λ v, v = true) (visible <$> l).

(** What the handlers keep true of the closure, [texts] being the texts of
    the entries the menu was opened with. *)
Record menuInv (texts : list (option string)) (m : Menu) : Prop := mkMenuInv {
  mi_count : itemCount m = Z.of_nat (length (displayedItems m));
  mi_selected :
    selectedItem m = lookupZ (selectedIndex m) (displayedItems m);
  mi_shown : displayedItems m `sublist_of` seq 0 (length (items m));
  mi_texts : textContent <$> items m = texts;
  mi_highlight :
    ∀ i it, items m !! i = Some it →
            highlighted it ↔ selectedItem m = Some i
}.

(** What an arrow key does once it has chosen the new index. *)
Definition moved (index : Z) (m : Menu) : Menu :=
  updateSelected (setSelectedIndex index m).

(** The places of the entries the [input] listener leaves displayed. *)
Definition shownFor (lower : string → string) (term : string)
    (l : list MenuItem) : list nat :=
  fst <$> filter (λ p : nat * MenuItem, isVisible lower term (snd p))
            (imap (λ i it, (i, it)) l).

(** A combo widget whose option values are the values of the menu. *)
Definition comboFor (values : list string) (w : Widget) : Prop :=
  w_type w = "combo" ∧ w_values w = Some values.

#[global] Instance comboFor_dec values w : Decision (comboFor values w).
Proof. unfold comboFor. apply _. Defined.

(** The widget at index [i] is the first of the node's widgets that is a
    combo widget for the values of the menu. *)
Definition firstComboFor (values : list string) (ws : list Widget)
    (i : nat) (w : Widget) : Prop :=
  ws !! i = Some w ∧ comboFor values w ∧
  ∀ j w', j < i → ws !! j = Some w' → ¬ comboFor values w'.

(** ** Further sample data *)

(** A request that tries to set [maximized] and [closeOnEscape] itself,
    for a dialog that is not closable. *)
Definition stubbornOptions : ShowDialogOptions :=
  {| opt_key := Some "x"; opt_title := None; opt_headerComponent := None;
     opt_footerComponent := None; opt_component := "Body";
     opt_props := None;
     opt_dialogComponentProps :=
       Some {| given_maximizable := absent; given_maximized := own (Some true);
               given_onClose := own (Some "done");
               given_closable := own (Some false);
               given_modal := absent; given_position := absent;
               given_pt := None; given_closeOnEscape := own (Some true);
               given_dismissableMask := absent |};
     opt_priority := Some (Num 3) |}.

(** A request without a key. *)
Definition keylessOptions : ShowDialogOptions :=
  {| opt_key := None; opt_title := Some "anonymous";
     opt_headerComponent := None; opt_footerComponent := None;
     opt_component := "Body"; opt_props := None;
     opt_dialogComponentProps := None; opt_priority := None |}.

(** A lower-casing function to run the examples with: it maps the ASCII
    capitals to their small letters and leaves every other character. *)
Definition asciiLowerChar (c : ascii) : ascii :=
  let n := nat_of_ascii c in
  if bool_decide (65 ≤ n ≤ 90) then ascii_of_nat (n + 32) else c.

Fixpoint asciiLower (s : string) : string :=
  match s with
  | EmptyString => EmptyString
  | String c s' => String (asciiLowerChar c) (asciiLower s')
  end.

Definition plainItem (text : string) : MenuItem :=
  {| textContent := Some text; css_backgroundColor := ("", false);
     css_color := ("", false); css_display := "" |}.

(** A combo menu of five values, opened on a node whose combo widget is
    set to ["Cherry"]. *)
Definition fruit : list string :=
  ["Apple"; "banana"; "Cherry"; "apricot"; "Beet"].

Definition fruitWidgets : option (list Widget) :=
  Some [ {| w_type := "number"; w_values := None; w_value := Some "3" |};
         {| w_type := "combo"; w_values := Some fruit;
            w_value := Some "Cherry" |} ].

(** A node with two combo widgets over the same values. *)
Definition twoCombos : option (list Widget) :=
  Some [ {| w_type := "number"; w_values := None; w_value := Some "3" |};
         {| w_type := "combo"; w_values := Some fruit;
            w_value := Some "banana" |};
         {| w_type := "combo"; w_values := Some fruit;
            w_value := Some "Cherry" |} ].

Definition fruitMenu : Menu := openMenu (plainItem <$> fruit) fruit fruitWidgets.

Definition fruitEvents : list MenuEvent :=
  [Keydown "ArrowDown"; Input "AP"; Keydown "ArrowRight"; Input "";
   Keydown "Tab"].

(** ** Arrays: [splice], [findIndex] *)

Section arrays.
Context {A : Type}.
Implicit Types l : list A.

Lemma splice_remove l i : splice i 1 [] l = delete i l.
Proof.
  unfold splice. rewrite delete_take_drop. simpl.
  by replace (i + 1) with (S i) by lia.
Qed.

Lemma splice_add l i x : splice i 0 [x] l = take i l ++ x :: drop i l.
Proof. unfold splice. simpl. by replace (i + 0) with i by lia. Qed.

Lemma add_Permutation l i x : take i l ++ x :: drop i l ≡ₚ x :: l.
Proof.
  rewrite <-Permutation_middle. by rewrite take_drop.
Qed.

Lemma length_add l i x : length (take i l ++ x :: drop i l) = S (length l).
Proof. by rewrite (Permutation_length (add_Permutation l i x)). Qed.

Lemma lookup_add l i x :
  i ≤ length l → (take i l ++ x :: drop i l) !! i = Some x.
Proof.
  intros Hi. rewrite lookup_app_r; rewrite length_take; [|lia].
  by replace (i - i `min` length l) with 0 by lia.
Qed.

Lemma delete_alter (f : A → A) l i : delete i (alter f i l) = delete i l.
Proof.
  apply list_eq. intros j. destruct (decide (j < i)).
  - rewrite !list_lookup_delete_lt by done. apply list_lookup_alter_ne. lia.
  - rewrite !list_lookup_delete_ge by lia. apply list_lookup_alter_ne. lia.
Qed.

Context (P : A → Prop) `{!∀ x, Decision (P x)}.

Lemma list_find_lt l i x : list_find P l = Some (i, x) → i < length l.
Proof. intros (Hi & _)%list_find_Some. by eapply lookup_lt_Some. Qed.

(** [f] does not touch what [P] looks at. *)
Lemma list_find_alter_same (f : A → A) l i x :
  (∀ y, P (f y) ↔ P y) →
  list_find P l = Some (i, x) →
  list_find P (alter f i l) = Some (i, f x).
Proof.
  intros Hf (Hi & HP & Hlt)%list_find_Some. apply list_find_Some.
  split_and!.
  - by rewrite list_lookup_alter_eq, Hi.
  - by apply Hf.
  - intros j y Hj Hji. rewrite list_lookup_alter_ne in Hj by lia. eauto.
Qed.
End arrays.

(** ** Sorted lists of priorities *)

Lemma number_not_le a b :
  a ≠ NaN → b ≠ NaN → ¬ number_le a b ↔ number_lt b a.
Proof. destruct a, b; simpl; try done. intros _ _. lia. Qed.

Lemma number_not_lt a b :
  a ≠ NaN → b ≠ NaN → ¬ number_lt a b ↔ number_le b a.
Proof. destruct a, b; simpl; try done. intros _ _. lia. Qed.

Lemma descending_lookup ps i j a b :
  descending ps → i < j → ps !! i = Some a → ps !! j = Some b →
  a = NaN ∨ b = NaN ∨ number_le b a.
Proof.
  intros Hs. revert i j. induction Hs as [|x ps Hs IH Hx]; intros i j Hij Hi Hj.
  - by rewrite lookup_nil in Hi.
  - destruct j as [|j]; [lia|]. destruct i as [|i]; simplify_eq/=.
    + rewrite Forall_forall in Hx. apply Hx.
      by eapply list_elem_of_lookup_2.
    + eapply (IH i j); [lia|done..].
  Qed.

Lemma descending_sublist ps qs :
  qs `sublist_of` ps → descending ps → descending qs.
Proof.
  intros Hsub Hs. revert qs Hsub.
  induction Hs as [|x ps Hs IH Hx]; intros qs Hsub.
  - apply sublist_nil_r in Hsub as ->. constructor.
  - apply sublist_cons_r in Hsub as [Hsub|(qs' & -> & Hsub)]; [by apply IH|].
    constructor; [by apply IH|].
    rewrite Forall_forall in *. intros y Hy. apply Hx.
    by eapply elem_of_sublist.
Qed.

Lemma descending_add ps p j :
  descending ps →
  Forall (λ x, ¬ number_le x p) (take j ps) →
  (∀ x, ps !! j = Some x → number_le x p) →
  descending (take j ps ++ p :: drop j ps).
Proof.
  intros Hs Hbefore Hat. unfold descending in *.
  assert (Hparts := Hs). rewrite <-(take_drop j ps) in Hparts.
  apply StronglySorted_app in Hparts as (Hcross & Htake & Hdrop).
  apply StronglySorted_app_2; [|done|].
  - intros x1 x2 Hx1 [->|Hx2]%elem_of_cons; [|by apply Hcross].
    rewrite Forall_forall in Hbefore. specialize (Hbefore _ Hx1).
    destruct x1, p; simpl in *; auto. right; right. lia.
  - constructor; [done|].
    destruct (drop j ps) as [|y rest] eqn:Hd; [constructor|].
    assert (ps !! j = Some y) as Hy.
    { rewrite <-(Nat.add_0_r j), <-lookup_drop. by rewrite Hd. }
    specialize (Hat _ Hy).
    apply StronglySorted_cons in Hdrop as [Hrest _].
    constructor; [by right; right|]. eapply Forall_impl; [exact Hrest|].
    simpl. intros z Hz.
    destruct y, p, z; simpl in *; auto; right; right;
      destruct Hz as [?|[?|?]]; [done..|lia].
Qed.

(** ** The priority inserter *)

Lemma insertDialogByPriority_placed d s :
  insertDialogByPriority d s = setStack (placed d (dialogStack s)) s.
Proof. unfold insertDialogByPriority. by rewrite splice_add. Qed.

Lemma insertIndex_le d l : insertIndex d l ≤ length l.
Proof.
  unfold insertIndex.
  destruct (list_find _ l) as [[j y]|] eqn:Hfind; simpl; [|done].
  apply list_find_lt in Hfind. lia.
Qed.

Lemma insertIndex_before d l :
  Forall (λ x, ¬ number_le (priority x) (priority d))
         (take (insertIndex d l) l).
Proof.
  unfold insertIndex.
  destruct (list_find _ l) as [[j y]|] eqn:Hfind; simpl.
  - apply list_find_Some in Hfind as (_ & _ & Hlt).
    apply Forall_lookup. intros i x [Hx Hi]%lookup_take_Some.
    exact (Hlt _ _ Hx Hi).
  - apply list_find_None in Hfind. by rewrite firstn_all.
Qed.

Lemma insertIndex_at d l x :
  l !! insertIndex d l = Some x → number_le (priority x) (priority d).
Proof.
  unfold insertIndex.
  destruct (list_find _ l) as [[j y]|] eqn:Hfind; simpl.
  - apply list_find_Some in Hfind as (Hj & Hy & _). intros. by simplify_eq.
  - intros Hx%lookup_lt_Some. lia.
Qed.

Lemma placed_Permutation d l : placed d l ≡ₚ d :: l.
Proof. apply add_Permutation. Qed.

Lemma length_placed d l : length (placed d l) = S (length l).
Proof. apply length_add. Qed.

Lemma lookup_placed d l : placed d l !! insertIndex d l = Some d.
Proof. apply lookup_add, insertIndex_le. Qed.

Lemma placed_descending d l :
  descending (priority <$> l) → descending (priority <$> placed d l).
Proof.
  intros Hs. unfold placed.
  rewrite fmap_app, fmap_cons, fmap_take, fmap_drop.
  apply descending_add; [done|..].
  - rewrite <-fmap_take. apply Forall_fmap. apply insertIndex_before.
  - intros p. rewrite list_lookup_fmap.
    intros (x & Hx & ->)%fmap_Some. by eapply insertIndex_at.
Qed.

(** ** The escape-eligibility pass *)

Lemma key_setCloseOnEscape b d : key (setCloseOnEscape b d) = key d.
Proof. done. Qed.

Lemma updateCloseOnEscapeStates_fmap {B} (g : DialogInstance → B) s :
  (∀ b d, g (setCloseOnEscape b d) = g d) →
  g <$> dialogStack (updateCloseOnEscapeStates s) = g <$> dialogStack s.
Proof.
  intros Hg. unfold updateCloseOnEscapeStates. simpl.
  rewrite fmap_imap, <-imap_const. apply imap_ext. intros i x _. apply Hg.
Qed.

Lemma keys_update s : keys (updateCloseOnEscapeStates s) = keys s.
Proof. by apply updateCloseOnEscapeStates_fmap. Qed.

Lemma priorities_update s :
  priorities (updateCloseOnEscapeStates s) = priorities s.
Proof. by apply updateCloseOnEscapeStates_fmap. Qed.

Lemma length_update s :
  length (dialogStack (updateCloseOnEscapeStates s)) = length (dialogStack s).
Proof. unfold updateCloseOnEscapeStates. simpl. apply length_imap. Qed.

(** What the pass leaves at index [i]: the entry that was there, with a
    flag that is [true] only on the first entry keyed [activeKey], and only
    if that entry is closable. *)
Lemma lookup_update s i d' :
  dialogStack (updateCloseOnEscapeStates s) !! i = Some d' →
  ∃ d b,
    dialogStack s !! i = Some d ∧
    d' = setCloseOnEscape (Some b) d ∧
    (b = true →
       list_find (λ x, Some (key x) = activeKey s) (dialogStack s)
         = Some (i, d) ∧
       closable (dialogComponentProps d) = Some true).
Proof.
  unfold updateCloseOnEscapeStates. simpl.
  intros (d & Hd & ->)%list_lookup_imap_Some.
  eexists d, _. split_and!; [done..|].
  intros (Htop & Hclosable)%andb_prop.
  apply bool_decide_eq_true in Htop.
  destruct (list_find _ (dialogStack s)) as [[j t]|] eqn:Hfind;
    simplify_eq/=.
  assert (t = d) as ->.
  { apply list_find_Some in Hfind as (? & _). congruence. }
  split; [done|]. by destruct (closable (dialogComponentProps d)) as [[]|].
Qed.

Lemma lookup_update_Some s i d :
  dialogStack s !! i = Some d →
  ∃ b, dialogStack (updateCloseOnEscapeStates s) !! i
         = Some (setCloseOnEscape (Some b) d).
Proof.
  intros Hd. unfold updateCloseOnEscapeStates. simpl.
  rewrite list_lookup_imap, Hd. simpl. by eexists.
Qed.

(** ** What each operation leaves in the store *)

Lemma riseDialog_found k s i d :
  list_find (λ x, key x = k) (dialogStack s) = Some (i, d) →
  riseDialog k s =
    updateCloseOnEscapeStates
      (setActiveKey (Some k)
         (setStack (placed d (delete i (dialogStack s))) s)).
Proof.
  intros Hfind. unfold riseDialog. rewrite Hfind.
  rewrite insertDialogByPriority_placed. simpl. by rewrite splice_remove.
Qed.

Lemma riseDialog_missing k s :
  list_find (λ x, key x = k) (dialogStack s) = None → riseDialog k s = s.
Proof. intros Hfind. unfold riseDialog. by rewrite Hfind. Qed.

Lemma closeDialog_found options s i d :
  closeTarget options s = Some (i, d) →
  closeDialog options s =
    updateCloseOnEscapeStates
      (setActiveKey (key <$> last (delete i (dialogStack s)))
         (setStack (delete i (dialogStack s))
            (invoke (onClose (dialogComponentProps d)) s))).
Proof.
  unfold closeTarget, closeDialog. intros ->.
  assert (dialogStack (invoke (onClose (dialogComponentProps d)) s)
          = dialogStack s) as Hstack.
  { by destruct (onClose (dialogComponentProps d)). }
  rewrite Hstack, splice_remove. done.
Qed.

Lemma closeDialog_missing options s :
  closeTarget options s = None → closeDialog options s = s.
Proof. unfold closeTarget, closeDialog. by intros ->. Qed.

Lemma createDialog_store k options s :
  fst (createDialog k options s) =
    updateCloseOnEscapeStates
      (setActiveKey (Some k)
         (setStack (placed (newDialog k options)
                      (afterEviction (dialogStack s))) s)).
Proof.
  unfold createDialog, afterEviction. simpl.
  rewrite insertDialogByPriority_placed. by case_bool_decide.
Qed.

Lemma createDialog_result k options s :
  ∃ b, snd (createDialog k options s)
       = Some (setCloseOnEscape (Some b) (newDialog k options)).
Proof.
  unfold createDialog. cbn [snd]. rewrite insertDialogByPriority_placed.
  apply lookup_update_Some. cbn [dialogStack setActiveKey setStack].
  case_bool_decide; apply lookup_placed.
Qed.

Lemma key_setVisible b d : key (setVisible b d) = key d.
Proof. done. Qed.

Lemma reshow_store k s i d :
  list_find (λ x, key x = k) (dialogStack s) = Some (i, d) →
  fst (reshow i d s) =
    updateCloseOnEscapeStates
      (setActiveKey (Some k)
         (setStack (placed (setVisible true d) (delete i (dialogStack s)))
            s)).
Proof.
  intros Hfind. unfold reshow. simpl.
  assert (key d = k) as Hk by (by apply list_find_Some in Hfind as (_ & ? & _)).
  rewrite Hk.
  erewrite riseDialog_found; last first.
  { simpl. by apply (list_find_alter_same _ (setVisible true)). }
  simpl. by rewrite delete_alter.
Qed.

Lemma reshow_result k s i d :
  list_find (λ x, key x = k) (dialogStack s) = Some (i, d) →
  ∃ b, snd (reshow i d s)
       = Some (setCloseOnEscape (Some b) (setVisible true d)).
Proof.
  intros Hfind.
  assert (Hstore := reshow_store _ _ _ _ Hfind).
  unfold reshow in *. simpl in *. rewrite Hstore.
  rewrite delete_alter.
  apply lookup_update_Some. simpl. apply lookup_placed.
Qed.

(** ** Invariants of the store *)

Lemma wellFormed_initial : wellFormed initialStore.
Proof.
  split; simpl; [constructor|constructor|by intros ?%elem_of_nil|lia|done].
Qed.

(** Every operation that changes the stack ends with the escape pass over
    a stack [l] and an active key [a]; these are the conditions on [l] and
    [a]. *)
Lemma wellFormed_update l a s :
  descending (priority <$> l) →
  NoDup (key <$> l) →
  "" ∉ key <$> l →
  length l ≤ 10 →
  live (key <$> l) a →
  wellFormed (updateCloseOnEscapeStates (setActiveKey a (setStack l s))).
Proof.
  intros ?????.
  split; rewrite ?keys_update, ?priorities_update;
    unfold keys, priorities; simpl; try done.
  by rewrite length_fmap.
Qed.

Lemma wellFormed_moved k s i d d' :
  wellFormed s →
  dialogStack s !! i = Some d →
  key d = k → key d' = k → priority d' = priority d →
  wellFormed
    (updateCloseOnEscapeStates
       (setActiveKey (Some k)
          (setStack (placed d' (delete i (dialogStack s))) s))).
Proof.
  intros [Hs Hnd Hnamed Hlen _] Hd Hk Hk' Hp.
  assert (key <$> placed d' (delete i (dialogStack s)) ≡ₚ keys s) as Hperm.
  { rewrite placed_Permutation, fmap_cons, Hk', <-Hk.
    unfold keys. by rewrite (delete_Permutation _ _ _ Hd) at 2. }
  apply wellFormed_update.
  - apply placed_descending. rewrite list_fmap_delete.
    eapply descending_sublist; [apply sublist_delete|done].
  - by rewrite Hperm.
  - by rewrite Hperm.
  - by rewrite <-(length_fmap key), (Permutation_length Hperm).
  - simpl. rewrite Hperm, <-Hk. apply list_elem_of_fmap_2.
    by eapply list_elem_of_lookup_2.
Qed.

Lemma wellFormed_riseDialog k s : wellFormed s → wellFormed (riseDialog k s).
Proof.
  intros Hwf.
  destruct (list_find (λ x, key x = k) (dialogStack s)) as [[i d]|] eqn:Hfind.
  - rewrite (riseDialog_found _ _ _ _ Hfind).
    apply list_find_Some in Hfind as (Hd & Hk & _).
    by eapply wellFormed_moved.
  - by rewrite riseDialog_missing.
Qed.

Lemma wellFormed_reshow k s i d :
  wellFormed s →
  list_find (λ x, key x = k) (dialogStack s) = Some (i, d) →
  wellFormed (fst (reshow i d s)).
Proof.
  intros Hwf Hfind. rewrite (reshow_store _ _ _ _ Hfind).
  apply list_find_Some in Hfind as (Hd & Hk & _).
  by eapply wellFormed_moved.
Qed.

Lemma wellFormed_closeDialog options s :
  wellFormed s → wellFormed (closeDialog options s).
Proof.
  intros Hwf.
  destruct (closeTarget options s) as [[i d]|] eqn:Hfind.
  - destruct Hwf as [Hs Hnd Hnamed Hlen _].
    rewrite (closeDialog_found _ _ _ _ Hfind).
    assert (key <$> delete i (dialogStack s) `sublist_of` keys s) as Hsub.
    { rewrite list_fmap_delete. apply sublist_delete. }
    apply wellFormed_update.
    + rewrite list_fmap_delete.
      eapply descending_sublist; [apply sublist_delete|done].
    + by eapply sublist_NoDup.
    + intros Hin. apply Hnamed. by eapply elem_of_sublist.
    + apply sublist_length in Hsub. rewrite length_fmap in Hsub. lia.
    + destruct (last (delete i (dialogStack s))) as [t|] eqn:Hlast; simpl.
      * apply list_elem_of_fmap_2. by eapply last_Some_elem_of.
      * apply last_None in Hlast. by rewrite Hlast.
  - by rewrite closeDialog_missing.
Qed.

Lemma afterEviction_sublist l : afterEviction l `sublist_of` l.
Proof. unfold afterEviction. case_bool_decide; [apply sublist_drop|done]. Qed.

Lemma length_afterEviction l : length l ≤ 10 → length (afterEviction l) ≤ 9.
Proof.
  unfold afterEviction. case_bool_decide; [rewrite length_drop|]; lia.
Qed.

Lemma key_newDialog k options : key (newDialog k options) = k.
Proof. done. Qed.

Lemma wellFormed_createDialog k options s :
  wellFormed s → k ≠ "" → k ∉ keys s →
  wellFormed (fst (createDialog k options s)).
Proof.
  intros [Hs Hnd Hnamed Hlen _] Hk Hfresh. rewrite createDialog_store.
  set (l := afterEviction (dialogStack s)).
  assert (key <$> l `sublist_of` keys s) as Hsub.
  { apply fmap_sublist, afterEviction_sublist. }
  assert (key <$> placed (newDialog k options) l ≡ₚ k :: (key <$> l)) as Hperm.
  { by rewrite placed_Permutation. }
  apply wellFormed_update.
  - apply placed_descending.
    eapply descending_sublist; [|exact Hs].
    apply fmap_sublist, afterEviction_sublist.
  - rewrite Hperm. constructor; [|by eapply sublist_NoDup].
    intros Hin. apply Hfresh. by eapply elem_of_sublist.
  - rewrite Hperm. intros [?|Hin]%elem_of_cons; [done|].
    apply Hnamed. by eapply elem_of_sublist.
  - rewrite length_placed. unfold keys in Hlen. rewrite length_fmap in Hlen.
    pose proof (length_afterEviction (dialogStack s) Hlen). subst l. lia.
  - simpl. rewrite Hperm. by left.
Qed.

Lemma find_key_None k l :
  list_find (λ x : DialogInstance, key x = k) l = None → k ∉ key <$> l.
Proof.
  intros Hnone%list_find_None (d & -> & Hd)%list_elem_of_fmap.
  rewrite Forall_forall in Hnone. by apply (Hnone d).
Qed.

Lemma find_key_Some k l :
  k ∈ key <$> l → is_Some (list_find (λ x : DialogInstance, key x = k) l).
Proof.
  intros (d & -> & Hd)%list_elem_of_fmap. by eapply list_find_elem_of.
Qed.

Lemma genDialogKey_named draw : genDialogKey draw ≠ "".
Proof. done. Qed.

Lemma resolveKey_named options draw : resolveKey options draw ≠ "".
Proof.
  unfold resolveKey. destruct (opt_key options) as [k|]; [|done].
  by case_bool_decide.
Qed.

Lemma extensionKey_named k : k ≠ "" → extensionKey k ≠ "".
Proof. unfold extensionKey. by destruct (String.prefix _ k). Qed.

Lemma wellFormed_showDialog options draw s :
  wellFormed s → wellFormed (fst (showDialog options draw s)).
Proof.
  intros Hwf. unfold showDialog.
  destruct (list_find _ (dialogStack s)) as [[i d]|] eqn:Hfind.
  - by eapply wellFormed_reshow.
  - apply wellFormed_createDialog;
      [done|apply resolveKey_named|by apply find_key_None].
Qed.

Lemma wellFormed_showExtensionDialog options s :
  wellFormed s → wellFormed (fst (showExtensionDialog options s)).
Proof.
  intros Hwf. unfold showExtensionDialog.
  destruct (opt_key options) as [k|]; [|by destruct Hwf].
  case_bool_decide; [by destruct Hwf|].
  destruct (list_find _ (dialogStack s)) as [[i d]|] eqn:Hfind.
  - by eapply wellFormed_reshow.
  - apply wellFormed_createDialog;
      [done|by apply extensionKey_named|by apply find_key_None].
Qed.

Lemma wellFormed_step op s : wellFormed s → wellFormed (step op s).
Proof.
  destruct op; simpl;
    auto using wellFormed_showDialog, wellFormed_showExtensionDialog,
      wellFormed_riseDialog, wellFormed_closeDialog.
Qed.

Lemma wellFormed_reachable s : reachable s → wellFormed s.
Proof.
  induction 1; auto using wellFormed_initial, wellFormed_step.
Qed.

Lemma reachable_run ops s : reachable s → reachable (run ops s).
Proof.
  revert s. induction ops as [|op ops IH]; intros s Hs; [done|].
  apply IH. by constructor.
Qed.

(** Every operation either ends with the escape pass or leaves the stack
    and the active key alone. *)
Lemma step_shape op s :
  (∃ s3, step op s = updateCloseOnEscapeStates s3) ∨
  (dialogStack (step op s) = dialogStack s ∧
   activeKey (step op s) = activeKey s).
Proof.
  destruct op as [options draw|options|k|options]; simpl.
  - unfold showDialog.
    destruct (list_find _ (dialogStack s)) as [[i d]|] eqn:Hfind; left.
    + eexists. by eapply reshow_store.
    + eexists. apply createDialog_store.
  - unfold showExtensionDialog.
    destruct (opt_key options) as [k|]; [|by right].
    case_bool_decide; [by right|].
    destruct (list_find _ (dialogStack s)) as [[i d]|] eqn:Hfind; left.
    + eexists. by eapply reshow_store.
    + eexists. apply createDialog_store.
  - destruct (list_find (λ x, key x = k) (dialogStack s)) as [[i d]|]
      eqn:Hfind.
    + left. eexists. by apply riseDialog_found.
    + right. by rewrite riseDialog_missing.
  - destruct (closeTarget options s) as [[i d]|] eqn:Hfind.
    + left. eexists. by apply closeDialog_found.
    + right. by rewrite closeDialog_missing.
Qed.

(** ** Properties *)

Lemma singleEscape_update s : singleEscape (updateCloseOnEscapeStates s).
Proof.
  intros i d' Hi.
  apply lookup_update in Hi as (d & b & Hd & -> & Htop).
  exists b. split; [done|]. intros Hb.
  destruct (Htop Hb) as [Hfind Hclosable].
  split_and!; [|done|].
  - apply list_find_Some in Hfind as (_ & Hk & _). done.
  - intros j e' Hj Hesc'.
    apply lookup_update in Hj as (e & c & He & -> & Htop').
    unfold escapes in Hesc'. simpl in Hesc'.
    destruct Htop' as [Hfind' _]; congruence.
Qed.

Lemma singleEscape_reachable s : reachable s → singleEscape s.
Proof.
  induction 1 as [|op s Hs IH].
  - intros i d Hi. simpl in Hi. by rewrite lookup_nil in Hi.
  - destruct (step_shape op s) as [[s3 ->]|[Hstack Hactive]].
    + apply singleEscape_update.
    + unfold singleEscape. by rewrite Hstack, Hactive.
Qed.

Lemma sampleStore_reachable : reachable sampleStore.
Proof. apply reachable_run, reachable_init. Qed.

Lemma numbersSorted_reachable s : reachable s → numbersSorted (dialogStack s).
Proof.
  intros [Hdesc _ _ _ _]%wellFormed_reachable i j a b Hij Ha Hb Hna Hnb.
  destruct (descending_lookup (priorities s) i j (priority a) (priority b))
    as [?|[?|?]]; [done|done|..|done|done|done].
  - unfold priorities. by rewrite list_lookup_fmap, Ha.
  - unfold priorities. by rewrite list_lookup_fmap, Hb.
Qed.

Lemma numbersSorted_numeric l :
  numbersSorted l → numeric l → sortedByPriority l.
Proof.
  intros Hsorted Hnum i a b Ha Hb.
  unfold numeric in Hnum. rewrite Forall_forall in Hnum.
  apply (Hsorted i (S i)); [lia|done|done|..]; apply Hnum;
    by eapply list_elem_of_lookup_2.
Qed.

Lemma numeric_sublist l l' : l' `sublist_of` l → numeric l → numeric l'.
Proof.
  unfold numeric. rewrite !Forall_forall. intros Hsub Hall d Hd.
  apply Hall. by eapply elem_of_sublist.
Qed.

Lemma numeric_placed d l :
  priority d ≠ NaN → numeric l → numeric (placed d l).
Proof.
  unfold numeric. intros Hd Hl.
  rewrite (placed_Permutation d l). by constructor.
Qed.

Lemma numeric_update s :
  numeric (dialogStack s) → numeric (dialogStack (updateCloseOnEscapeStates s)).
Proof.
  unfold numeric. rewrite !Forall_forall. intros Hall d' Hd'.
  apply list_elem_of_lookup in Hd' as [i Hi].
  apply lookup_update in Hi as (d & b & Hd & -> & _). simpl.
  apply Hall. by eapply list_elem_of_lookup_2.
Qed.

Lemma numeric_step op s :
  numericOp op → numeric (dialogStack s) → numeric (dialogStack (step op s)).
Proof.
  intros Hop Hall.
  assert (∀ k i d, list_find (λ x, key x = k) (dialogStack s) = Some (i, d) →
                   numeric (dialogStack (fst (reshow i d s)))) as Hreshow.
  { intros k i d Hfind. rewrite (reshow_store _ _ _ _ Hfind).
    apply numeric_update. simpl.
    apply list_find_Some in Hfind as (Hd & _ & _).
    apply numeric_placed.
    - simpl. unfold numeric in Hall. rewrite Forall_forall in Hall.
      apply Hall. by eapply list_elem_of_lookup_2.
    - eapply numeric_sublist; [apply sublist_delete|done]. }
  assert (∀ k options, opt_priority options ≠ Some NaN →
            numeric (dialogStack (fst (createDialog k options s))))
    as Hcreate.
  { intros k options Hp. rewrite createDialog_store.
    apply numeric_update. simpl.
    apply numeric_placed.
    - simpl. destruct (opt_priority options) as [p|]; simpl; congruence.
    - eapply numeric_sublist; [|exact Hall].
      unfold afterEviction. case_bool_decide; [apply sublist_drop|done]. }
  destruct op as [options draw|options|k|options]; simpl in Hop; simpl.
  - unfold showDialog.
    destruct (list_find _ (dialogStack s)) as [[i d]|] eqn:Hfind; eauto.
  - unfold showExtensionDialog.
    destruct (opt_key options) as [k|]; [|done].
    case_bool_decide; [done|].
    destruct (list_find _ (dialogStack s)) as [[i d]|] eqn:Hfind; eauto.
  - destruct (list_find (λ x, key x = k) (dialogStack s)) as [[i d]|]
      eqn:Hfind.
    + rewrite (riseDialog_found _ _ _ _ Hfind).
      apply numeric_update. simpl.
      apply list_find_Some in Hfind as (Hd & _ & _).
      apply numeric_placed.
      * unfold numeric in Hall. rewrite Forall_forall in Hall.
        apply Hall. by eapply list_elem_of_lookup_2.
      * eapply numeric_sublist; [apply sublist_delete|done].
    + by rewrite riseDialog_missing.
  - destruct (closeTarget options s) as [[i d]|] eqn:Hfind.
    + rewrite (closeDialog_found _ _ _ _ Hfind).
      apply numeric_update. simpl.
      eapply numeric_sublist; [apply sublist_delete|].
      by destruct (onClose (dialogComponentProps d)).
    + by rewrite closeDialog_missing.
Qed.

Lemma numeric_run ops s :
  Forall numericOp ops → numeric (dialogStack s) →
  numeric (dialogStack (run ops s)).
Proof.
  intros Hops. revert s.
  induction Hops as [|op ops Hop Hops IH]; intros s Hs; [done|].
  apply IH. by apply numeric_step.
Qed.

Lemma nanStore_stack :
  priority <$> dialogStack nanStore = [Num 1; NaN; Num 0].
Proof. reflexivity. Qed.

(** C2, as stated.  The stack is not sorted in every reachable state: a
    priority may be NaN, which [<=] never finds less than or equal to
    anything, so an entry of priority NaN is appended at the end and what
    is shown next may land behind it.  Showing a dialog of priority 1,
    one of priority NaN and one of priority 0 leaves the priorities
    [[1; NaN; 0]], and [1 >= NaN] is false. *)
Lemma nan_priority_breaks_order :
  reachable nanStore ∧
  priority <$> dialogStack nanStore = [Num 1; NaN; Num 0] ∧
  ¬ sortedByPriority (dialogStack nanStore).
Proof.
  split_and!.
  - apply reachable_run, reachable_init.
  - exact nanStore_stack.
  - intros Hsorted.
    assert (∃ a n, dialogStack nanStore !! 0 = Some a ∧
                   dialogStack nanStore !! 1 = Some n ∧
                   priority n = NaN) as (a & n & Ha & Hn & Hp).
    { eexists _, _. split_and!; reflexivity. }
    specialize (Hsorted 0 a n Ha Hn).
    unfold number_ge in Hsorted. by rewrite Hp in Hsorted.
Qed.

(** C2, amended.  In every reachable state of the store, hence after every
    [show], [showExtension], [rise] and [close], the entries whose
    priority is not NaN are sorted by priority, highest first; so when no
    entry of the stack has the priority NaN, the priority of the entry at
    index [i] is at least the priority of the entry at index [i + 1].
    The same holds of the state any further operation leads to.  A stack
    without NaN stays without NaN, and so stays sorted, under every
    operation that does not pass NaN as a priority; in particular the
    stack is sorted after every run of such operations from the empty
    store. *)
Theorem stack_sorted_by_numeric_priority s :
  reachable s →
  (numbersSorted (dialogStack s) ∧
   (numeric (dialogStack s) → sortedByPriority (dialogStack s))) ∧
  (∀ op,
     numbersSorted (dialogStack (step op s)) ∧
     (numeric (dialogStack (step op s)) →
      sortedByPriority (dialogStack (step op s)))) ∧
  (∀ op,
     numeric (dialogStack s) → numericOp op →
     numeric (dialogStack (step op s)) ∧
     sortedByPriority (dialogStack (step op s))) ∧
  (∀ ops,
     Forall numericOp ops →
     numeric (dialogStack (run ops initialStore)) ∧
     sortedByPriority (dialogStack (run ops initialStore))).
Proof.
  assert (∀ t, reachable t →
            numbersSorted (dialogStack t) ∧
            (numeric (dialogStack t) → sortedByPriority (dialogStack t)))
    as Hsorted.
  { intros t Ht. split; [by apply numbersSorted_reachable|].
    by apply numbersSorted_numeric, numbersSorted_reachable. }
  intros Hs. split_and!.
  - by apply Hsorted.
  - by apply Hsorted.
  - intros op. apply Hsorted. by constructor.
  - intros op Hnum Hop.
    assert (numeric (dialogStack (step op s))) by by apply numeric_step.
    split; [done|]. apply Hsorted; [by constructor|done].
  - intros ops Hops.
    assert (numeric (dialogStack (run ops initialStore))) as Hnum.
    { apply numeric_run; [done|]. constructor. }
    split; [done|].
    apply Hsorted; [|done]. apply reachable_run, reachable_init.
Qed.

Lemma stack_sorted_by_numeric_priority_witness :
  reachable sampleStore ∧
  (numbersSorted (dialogStack sampleStore) ∧
   (numeric (dialogStack sampleStore) →
    sortedByPriority (dialogStack sampleStore))) ∧
  (∀ op,
     numbersSorted (dialogStack (step op sampleStore)) ∧
     (numeric (dialogStack (step op sampleStore)) →
      sortedByPriority (dialogStack (step op sampleStore)))) ∧
  (∀ op,
     numeric (dialogStack sampleStore) → numericOp op →
     numeric (dialogStack (step op sampleStore)) ∧
     sortedByPriority (dialogStack (step op sampleStore))) ∧
  (∀ ops,
     Forall numericOp ops →
     numeric (dialogStack (run ops initialStore)) ∧
     sortedByPriority (dialogStack (run ops initialStore))).
Proof.
  split; [exact sampleStore_reachable|].
  exact (stack_sorted_by_numeric_priority sampleStore sampleStore_reachable).
Defined.

(** C3. In every reachable state, hence after every public operation, at
    most one entry of the stack has [closeOnEscape = true]; an entry that
    has it is the one keyed by the active key and its [closable] flag is
    [true].  An entry that is not keyed by the active key, or whose
    [closable] is falsy, has [closeOnEscape = false]. *)
Theorem single_escape_entry s :
  reachable s →
  (∀ i d,
     dialogStack s !! i = Some d →
     closeOnEscape (dialogComponentProps d) = Some true →
     activeKey s = Some (key d) ∧
     closable (dialogComponentProps d) = Some true ∧
     ∀ j d',
       dialogStack s !! j = Some d' →
       closeOnEscape (dialogComponentProps d') = Some true →
       j = i) ∧
  (∀ d,
     d ∈ dialogStack s →
     activeKey s ≠ Some (key d) ∨ truthy (closable (dialogComponentProps d)) = false →
     closeOnEscape (dialogComponentProps d) = Some false).
Proof.
  intros Hs. pose proof (singleEscape_reachable s Hs) as Hsingle. split.
  - intros i d Hd Hesc.
    destruct (Hsingle i d Hd) as (b & Hb & Htrue).
    apply Htrue. congruence.
  - intros d [i Hd]%list_elem_of_lookup Hoff.
    destruct (Hsingle i d Hd) as (b & Hb & Htrue).
    destruct b; [|done].
    destruct Htrue as (Hactive & Hclosable & _); [done|].
    rewrite Hclosable in Hoff. by destruct Hoff.
Qed.

(** C4. In every reachable state, hence after every public operation from
    the initial empty store: if the stack is not empty and the active key
    is set, the active key is the key of an entry of the stack; if the
    stack is empty, the active key is null. *)
Theorem active_key_live s :
  reachable s →
  (dialogStack s ≠ [] →
   ∀ k, activeKey s = Some k → ∃ d, d ∈ dialogStack s ∧ key d = k) ∧
  (dialogStack s = [] → activeKey s = None).
Proof.
  intros [_ _ _ _ Hlive]%wellFormed_reachable. unfold live, keys in Hlive.
  split.
  - intros _ k Hk. rewrite Hk in Hlive.
    apply list_elem_of_fmap in Hlive as (d & -> & Hd). eauto.
  - intros Hempty. rewrite Hempty in Hlive.
    destruct (activeKey s) as [k|]; [|done]. by apply elem_of_nil in Hlive.
Qed.

Lemma active_key_live_witness :
  reachable sampleStore ∧
  (dialogStack sampleStore ≠ [] →
   ∀ k, activeKey sampleStore = Some k →
        ∃ d, d ∈ dialogStack sampleStore ∧ key d = k) ∧
  (dialogStack sampleStore = [] → activeKey sampleStore = None).
Proof.
  split; [exact sampleStore_reachable|].
  exact (active_key_live sampleStore sampleStore_reachable).
Defined.

Lemma single_escape_entry_witness :
  reachable sampleStore ∧
  (∀ i d,
     dialogStack sampleStore !! i = Some d →
     closeOnEscape (dialogComponentProps d) = Some true →
     activeKey sampleStore = Some (key d) ∧
     closable (dialogComponentProps d) = Some true ∧
     ∀ j d',
       dialogStack sampleStore !! j = Some d' →
       closeOnEscape (dialogComponentProps d') = Some true →
       j = i) ∧
  (∀ d,
     d ∈ dialogStack sampleStore →
     activeKey sampleStore ≠ Some (key d) ∨
       truthy (closable (dialogComponentProps d)) = false →
     closeOnEscape (dialogComponentProps d) = Some false).
Proof.
  split; [exact sampleStore_reachable|].
  exact (single_escape_entry sampleStore sampleStore_reachable).
Defined.

(** In the sample store the entry at index 1 is the one that escapes. *)
Example sampleStore_escape :
  dialogStack sampleStore !! 1 = Some sampleEntry ∧
  activeKey sampleStore = Some "extension-c".
Proof. done. Qed.

(** *** The key generator *)

Lemma substring_renderDigits n ds :
  String.substring 0 n (renderDigits ds) = renderDigits (take n ds).
Proof.
  revert ds. induction n as [|n IH]; intros [|d ds]; simpl; try done.
  by rewrite IH.
Qed.

Lemma slice_toString36 draw :
  slice 2 9 (toString36 draw) = renderDigits (take 7 draw).
Proof.
  destruct draw as [|d ds]; [done|].
  unfold slice, toString36.
  change (String.substring 0 7 (renderDigits (d :: ds))
          = renderDigits (take 7 (d :: ds))).
  apply substring_renderDigits.
Qed.

Lemma length_renderDigits ds : String.length (renderDigits ds) = length ds.
Proof. induction ds as [|d ds IH]; simpl; [done|by rewrite IH]. Qed.

Lemma digitChar_base36 d : isBase36 (digitChar d).
Proof.
  unfold isBase36.
  do 36 (destruct d as [|d];
         [vm_compute; repeat (first [left; reflexivity | right])|]).
  vm_compute. by left.
Qed.

Lemma renderDigits_base36 ds :
  Forall isBase36 (String.list_ascii_of_string (renderDigits ds)).
Proof.
  induction ds as [|d ds IH]; simpl; constructor;
    [apply digitChar_base36|done].
Qed.

(** C9, as stated, fails: [slice(2, 9)] keeps seven characters.  The draw
    [2^-14] is written [0.002uik9] in base 36 and yields the key
    [dialog-002uik9]. *)
Lemma genDialogKey_not_six_chars :
  ¬ sixCharKey (genDialogKey [0; 0; 2; 30; 18; 20; 9]).
Proof.
  intros (suffix & Hkey & Hlen & _).
  assert (suffix = "002uik9") as -> by (vm_compute in Hkey; congruence).
  vm_compute in Hlen. lia.
Qed.

(** C9, amended.  For every draw of the random source the generated key is
    ["dialog-"] followed by the first seven base-36 fraction digits of the
    draw: at most seven base-36 characters, exactly seven as soon as the
    draw has that many digits, and fewer only when it has fewer. *)
Theorem genDialogKey_shape draw :
  ∃ suffix,
    genDialogKey draw = "dialog-" +:+ suffix ∧
    suffix = renderDigits (take 7 draw) ∧
    String.length suffix = 7 `min` length draw ∧
    Forall isBase36 (String.list_ascii_of_string suffix).
Proof.
  exists (renderDigits (take 7 draw)). split_and!.
  - unfold genDialogKey. by rewrite slice_toString36.
  - done.
  - by rewrite length_renderDigits, length_take.
  - apply renderDigits_base36.
Qed.

(** *** Entries and stacks up to the escape flags *)

Lemma sameEntries_update s :
  sameEntries (dialogStack (updateCloseOnEscapeStates s)) (dialogStack s).
Proof. by apply updateCloseOnEscapeStates_fmap. Qed.

Lemma onCloseCalls_update s :
  onCloseCalls (updateCloseOnEscapeStates s) = onCloseCalls s.
Proof. done. Qed.

Lemma activeKey_update s :
  activeKey (updateCloseOnEscapeStates s) = activeKey s.
Proof. done. Qed.

Lemma isDialogOpen_keys k s : isDialogOpen k s = true ↔ k ∈ keys s.
Proof.
  unfold isDialogOpen, keys.
  rewrite bool_decide_eq_true, Exists_exists, list_elem_of_fmap.
  split.
  - intros (d & Hd & Hk). by exists d.
  - intros (d & Hk & Hd). by exists d.
Qed.

(** The reference an operation returns points into the stack. *)
Lemma createDialog_result_in k options s d :
  snd (createDialog k options s) = Some d →
  d ∈ dialogStack (fst (createDialog k options s)).
Proof. unfold createDialog. simpl. apply list_elem_of_lookup_2. Qed.

Lemma reshow_result_in i d s d' :
  snd (reshow i d s) = Some d' → d' ∈ dialogStack (fst (reshow i d s)).
Proof. unfold reshow. simpl. apply list_elem_of_lookup_2. Qed.

(** *** Capacity *)

Lemma createDialog_full k options s :
  10 ≤ length (dialogStack s) →
  evictsFirst s (fst (createDialog k options s)) (newDialog k options).
Proof.
  intros Hfull. rewrite createDialog_store.
  unfold afterEviction. rewrite bool_decide_eq_true_2 by done.
  set (d := newDialog k options). set (l := drop 1 (dialogStack s)).
  exists (take (insertIndex d l) l), (drop (insertIndex d l) l).
  split_and!.
  - by rewrite take_drop.
  - apply sameEntries_update.
  - rewrite length_update. simpl. rewrite length_placed.
    subst l. rewrite length_drop. lia.
  - done.
Qed.

Lemma showDialog_fresh options draw s :
  resolveKey options draw ∉ keys s →
  showDialog options draw s
    = createDialog (resolveKey options draw) options s.
Proof.
  intros Hfresh. unfold showDialog.
  destruct (list_find _ (dialogStack s)) as [[i d]|] eqn:Hfind; [|done].
  destruct Hfresh. apply list_find_Some in Hfind as (Hd & <- & _).
  apply list_elem_of_fmap_2. by eapply list_elem_of_lookup_2.
Qed.

Lemma showExtensionDialog_fresh options k s :
  opt_key options = Some k → k ≠ "" → extensionKey k ∉ keys s →
  showExtensionDialog options s = createDialog (extensionKey k) options s.
Proof.
  intros Hk Hnamed Hfresh. unfold showExtensionDialog. rewrite Hk.
  rewrite bool_decide_eq_false_2 by done.
  destruct (list_find _ (dialogStack s)) as [[i d]|] eqn:Hfind; [|done].
  destruct Hfresh. apply list_find_Some in Hfind as (Hd & <- & _).
  apply list_elem_of_fmap_2. by eapply list_elem_of_lookup_2.
Qed.

Lemma sameEntries_keys l l' : sameEntries l l' → key <$> l = key <$> l'.
Proof.
  intros Hsame. apply (f_equal (fmap key)) in Hsame.
  rewrite <-!list_fmap_compose in Hsame. exact Hsame.
Qed.

Lemma evictsFirst_not_open s s' d x :
  NoDup (keys s) →
  evictsFirst s s' d →
  head (dialogStack s) = Some x →
  key d ∉ keys s →
  isDialogOpen (key x) s' = false.
Proof.
  intros Hnd (pre & post & Hdrop & Hsame%sameEntries_keys & _ & _) Hx Hfresh.
  apply not_true_is_false. rewrite isDialogOpen_keys.
  unfold keys in *. rewrite Hsame.
  destruct (dialogStack s) as [|y rest]; simplify_eq/=.
  rewrite drop_0 in Hdrop. subst rest.
  apply NoDup_cons in Hnd as [Hx _]. rewrite fmap_app in Hx.
  rewrite fmap_app, fmap_cons, elem_of_app, elem_of_cons.
  rewrite elem_of_app in Hx.
  intros [Hin|[Heq|Hin]]; [by apply Hx; left| |by apply Hx; right].
  apply Hfresh. rewrite <-Heq. by left.
Qed.

(** C5. The stack of a reachable state never holds more than 10 entries.
    Whenever [show] or [showExtension] creates an entry while the stack
    already holds 10, the resulting stack is the old one without its entry
    at index 0 and with the new entry inserted: exactly one entry is
    removed, the one at index 0, its key is no longer open, and no
    [onClose] callback is invoked. *)
Theorem capacity_bound :
  (∀ s, reachable s → length (dialogStack s) ≤ 10) ∧
  (∀ s options draw,
     10 ≤ length (dialogStack s) →
     resolveKey options draw ∉ keys s →
     evictsFirst s (fst (showDialog options draw s))
       (newDialog (resolveKey options draw) options)) ∧
  (∀ s options k,
     10 ≤ length (dialogStack s) →
     opt_key options = Some k → k ≠ "" →
     extensionKey k ∉ keys s →
     evictsFirst s (fst (showExtensionDialog options s))
       (newDialog (extensionKey k) options)) ∧
  (∀ s s' d x,
     reachable s →
     evictsFirst s s' d →
     head (dialogStack s) = Some x →
     key d ∉ keys s →
     isDialogOpen (key x) s' = false).
Proof.
  split_and!.
  - intros s [_ _ _ Hlen _]%wellFormed_reachable.
    unfold keys in Hlen. by rewrite length_fmap in Hlen.
  - intros s options draw Hfull Hfresh.
    rewrite showDialog_fresh by done. by apply createDialog_full.
  - intros s options k Hfull Hk Hnamed Hfresh.
    rewrite (showExtensionDialog_fresh _ k) by done.
    by apply createDialog_full.
  - intros s s' d x [_ Hnd _ _ _]%wellFormed_reachable.
    by apply evictsFirst_not_open.
Qed.

Lemma fullStore_reachable : reachable fullStore.
Proof. apply reachable_run, reachable_init. Qed.

Lemma capacity_bound_witness :
  length (dialogStack fullStore) ≤ 10 ∧
  evictsFirst fullStore
    (fst (showDialog (plainOptions "d11") [] fullStore))
    (newDialog "d11" (plainOptions "d11")) ∧
  evictsFirst fullStore
    (fst (showExtensionDialog (plainOptions "d11") fullStore))
    (newDialog "extension-d11" (plainOptions "d11")) ∧
  isDialogOpen "d10" (fst (showDialog (plainOptions "d11") [] fullStore))
    = false.
Proof.
  destruct capacity_bound as (Hbound & Hshow & Hext & Hclosed).
  assert (evictsFirst fullStore
            (fst (showDialog (plainOptions "d11") [] fullStore))
            (newDialog "d11" (plainOptions "d11"))) as Hevicts.
  { apply (Hshow fullStore (plainOptions "d11") []).
    - vm_compute. lia.
    - apply (bool_decide_unpack _). vm_compute. exact I. }
  split_and!.
  - apply Hbound, fullStore_reachable.
  - exact Hevicts.
  - apply (Hext fullStore (plainOptions "d11") "d11").
    + vm_compute. lia.
    + reflexivity.
    + discriminate.
    + apply (bool_decide_unpack _). vm_compute. exact I.
  - apply (Hclosed fullStore _ _ (newDialog "d10" (plainOptions "d10"))
             fullStore_reachable Hevicts).
    + reflexivity.
    + apply (bool_decide_unpack _). vm_compute. exact I.
Defined.

(** *** Promotion *)

Lemma riseDialog_spec s k i d :
  list_find (λ x, key x = k) (dialogStack s) = Some (i, d) →
  ∃ pre post,
    delete i (dialogStack s) = pre ++ post ∧
    Forall (λ x, ¬ number_le (priority x) (priority d)) pre ∧
    (numeric (dialogStack s) →
     Forall (λ x, number_lt (priority d) (priority x)) pre) ∧
    (∀ x, head post = Some x → number_le (priority x) (priority d)) ∧
    sameEntries (dialogStack (riseDialog k s)) (pre ++ d :: post) ∧
    activeKey (riseDialog k s) = Some k.
Proof.
  intros Hfind. rewrite (riseDialog_found _ _ _ _ Hfind).
  set (l := delete i (dialogStack s)).
  exists (take (insertIndex d l) l), (drop (insertIndex d l) l).
  split_and!.
  - by rewrite take_drop.
  - apply insertIndex_before.
  - intros Hnum. unfold numeric in Hnum. rewrite Forall_forall in Hnum.
    apply list_find_Some in Hfind as (Hd & _ & _).
    pose proof (insertIndex_before d l) as Hbefore.
    rewrite Forall_forall in Hbefore |- *. intros x Hx.
    apply number_not_le; [..|by apply Hbefore].
    + apply Hnum. eapply elem_of_sublist; [|apply sublist_delete].
      eapply elem_of_sublist; [exact Hx|apply sublist_take].
    + apply Hnum. by eapply list_elem_of_lookup_2.
  - intros x Hx. apply (insertIndex_at d l).
    by rewrite head_lookup, lookup_drop, Nat.add_0_r in Hx.
  - apply sameEntries_update.
  - done.
Qed.

(** C6. On the stack [[A; B]] with [A] at priority 5 and [B] at priority
    1, [rise] with key ["B"] leaves the order [[A; B]] and makes ["B"] the
    active key.  In general [rise] takes the named entry out and puts it
    back immediately before the first remaining entry whose priority is at
    most its own, at the end if there is none: no entry in front of it
    has a priority [<=] its own, and where the stack holds no NaN every
    entry in front of it has a strictly higher priority. *)
Theorem rise_reinserts_by_priority :
  (∀ s a b,
     dialogStack s = [a; b] →
     key a = "A" → priority a = Num 5 →
     key b = "B" → priority b = Num 1 →
     keys (riseDialog "B" s) = ["A"; "B"] ∧
     sameEntries (dialogStack (riseDialog "B" s)) [a; b] ∧
     activeKey (riseDialog "B" s) = Some "B") ∧
  (∀ s k i d,
     list_find (λ x, key x = k) (dialogStack s) = Some (i, d) →
     ∃ pre post,
       delete i (dialogStack s) = pre ++ post ∧
       Forall (λ x, ¬ number_le (priority x) (priority d)) pre ∧
       (numeric (dialogStack s) →
        Forall (λ x, number_lt (priority d) (priority x)) pre) ∧
       (∀ x, head post = Some x → number_le (priority x) (priority d)) ∧
       sameEntries (dialogStack (riseDialog k s)) (pre ++ d :: post) ∧
       activeKey (riseDialog k s) = Some k).
Proof.
  split; [|apply riseDialog_spec].
  intros s a b Hstack Ha Hpa Hb Hpb.
  assert (list_find (λ x, key x = "B") (dialogStack s) = Some (1, b))
    as Hfind.
  { rewrite Hstack. simpl.
    rewrite decide_False by (by rewrite Ha).
    by rewrite decide_True. }
  rewrite (riseDialog_found _ _ _ _ Hfind), Hstack.
  assert (placed b (delete 1 [a; b]) = [a; b]) as Hplaced.
  { unfold placed, insertIndex. simpl.
    rewrite decide_False by (rewrite Hpa, Hpb; simpl; lia). done. }
  rewrite Hplaced. split_and!.
  - rewrite keys_update. unfold keys. simpl. by rewrite Ha, Hb.
  - apply sameEntries_update.
  - done.
Qed.

Lemma rise_reinserts_by_priority_witness :
  (keys (riseDialog "B" (setStack [sampleA; sampleB] initialStore))
     = ["A"; "B"] ∧
   sameEntries
     (dialogStack (riseDialog "B" (setStack [sampleA; sampleB] initialStore)))
     [sampleA; sampleB] ∧
   activeKey (riseDialog "B" (setStack [sampleA; sampleB] initialStore))
     = Some "B") ∧
  (let d := setCloseOnEscape (Some false) (newDialog "a" (plainOptions "a")) in
   ∃ pre post,
     delete 2 (dialogStack sampleStore) = pre ++ post ∧
     Forall (λ x, ¬ number_le (priority x) (priority d)) pre ∧
     (numeric (dialogStack sampleStore) →
      Forall (λ x, number_lt (priority d) (priority x)) pre) ∧
     (∀ x, head post = Some x → number_le (priority x) (priority d)) ∧
     sameEntries (dialogStack (riseDialog "a" sampleStore))
       (pre ++ d :: post) ∧
     activeKey (riseDialog "a" sampleStore) = Some "a").
Proof.
  split.
  - apply (proj1 rise_reinserts_by_priority
             (setStack [sampleA; sampleB] initialStore) sampleA sampleB);
      reflexivity.
  - apply (proj2 rise_reinserts_by_priority sampleStore "a" 2).
    reflexivity.
Defined.

(** *** Showing a key that is already open *)

Lemma resolveKey_given options draw k :
  opt_key options = Some k → k ≠ "" → resolveKey options draw = k.
Proof.
  intros Hk Hnamed. unfold resolveKey. rewrite Hk.
  by rewrite bool_decide_eq_false_2.
Qed.

Lemma showDialog_existing options draw s k i d :
  opt_key options = Some k → k ≠ "" →
  list_find (λ x, key x = k) (dialogStack s) = Some (i, d) →
  showDialog options draw s = reshow i d s.
Proof.
  intros Hk Hnamed Hfind. unfold showDialog.
  by rewrite (resolveKey_given _ _ k), Hfind.
Qed.

Lemma showExtensionDialog_existing options s k i d :
  opt_key options = Some k → k ≠ "" →
  list_find (λ x, key x = extensionKey k) (dialogStack s) = Some (i, d) →
  showExtensionDialog options s = reshow i d s.
Proof.
  intros Hk Hnamed Hfind. unfold showExtensionDialog.
  by rewrite Hk, bool_decide_eq_false_2, Hfind.
Qed.

Lemma keys_reshow k s i d :
  list_find (λ x, key x = k) (dialogStack s) = Some (i, d) →
  keys (fst (reshow i d s)) ≡ₚ keys s.
Proof.
  intros Hfind. rewrite (reshow_store _ _ _ _ Hfind), keys_update.
  apply list_find_Some in Hfind as (Hd & _ & _).
  unfold keys. simpl.
  rewrite placed_Permutation, fmap_cons, key_setVisible.
  by rewrite (delete_Permutation _ _ _ Hd) at 2.
Qed.

Lemma activeKey_reshow k s i d :
  list_find (λ x, key x = k) (dialogStack s) = Some (i, d) →
  activeKey (fst (reshow i d s)) = Some k.
Proof. intros Hfind. by rewrite (reshow_store _ _ _ _ Hfind). Qed.

(** C7. In every state, [show] with a key [k] that is already in the
    stack (and is not the empty string, which [show] takes for no key)
    creates no second entry under that key: the stack keeps its length
    and its keys, which stay pairwise distinct if they were; the active
    key becomes [k]; and the entry returned is the existing one, in the
    stack, with [visible] set to [true] whatever it was (its escape flag
    recomputed like everyone's). *)
Theorem show_existing_key s k options draw :
  k ∈ keys s →
  k ≠ "" →
  opt_key options = Some k →
  let s' := fst (showDialog options draw s) in
  length (dialogStack s') = length (dialogStack s) ∧
  keys s' ≡ₚ keys s ∧
  (NoDup (keys s) → NoDup (keys s')) ∧
  activeKey s' = Some k ∧
  ∃ i d d',
    list_find (λ x, key x = k) (dialogStack s) = Some (i, d) ∧
    snd (showDialog options draw s) = Some d' ∧
    d' ∈ dialogStack s' ∧
    key d' = k ∧
    visible d' = true ∧
    setCloseOnEscape None d' = setCloseOnEscape None (setVisible true d).
Proof.
  intros Hin Hnamed Hk. simpl.
  destruct (find_key_Some _ _ Hin) as [[i d] Hfind].
  rewrite (showDialog_existing _ _ _ _ _ _ Hk Hnamed Hfind).
  pose proof (keys_reshow _ _ _ _ Hfind) as Hperm.
  split_and!.
  - apply Permutation_length in Hperm. unfold keys in Hperm.
    by rewrite !length_fmap in Hperm.
  - done.
  - by rewrite Hperm.
  - by eapply activeKey_reshow.
  - destruct (reshow_result _ _ _ _ Hfind) as [b Hresult].
    eexists i, d, _. split_and!; [done|exact Hresult|..].
    + by apply reshow_result_in.
    + by apply list_find_Some in Hfind as (_ & ? & _).
    + done.
    + done.
Qed.

Lemma show_existing_key_witness :
  visible <$> dialogStack hiddenStore = [true; true; false] ∧
  let s' := fst (showDialog (withPriority 9 "a") [] hiddenStore) in
  length (dialogStack s') = length (dialogStack hiddenStore) ∧
  keys s' ≡ₚ keys hiddenStore ∧
  (NoDup (keys hiddenStore) → NoDup (keys s')) ∧
  activeKey s' = Some "a" ∧
  ∃ i d d',
    list_find (λ x, key x = "a") (dialogStack hiddenStore) = Some (i, d) ∧
    snd (showDialog (withPriority 9 "a") [] hiddenStore) = Some d' ∧
    d' ∈ dialogStack s' ∧
    key d' = "a" ∧
    visible d' = true ∧
    setCloseOnEscape None d' = setCloseOnEscape None (setVisible true d).
Proof.
  split; [reflexivity|].
  apply (show_existing_key hiddenStore "a" (withPriority 9 "a") []).
  - apply (bool_decide_unpack _). vm_compute. exact I.
  - discriminate.
  - reflexivity.
Defined.



(** *** The extension namespace *)

Lemma extensionKey_idempotent k : extensionKey (extensionKey k) = extensionKey k.
Proof.
  unfold extensionKey at 2 3.
  destruct (String.prefix "extension-" k) eqn:Hprefix.
  - unfold extensionKey. by rewrite Hprefix.
  - unfold extensionKey. simpl.
    by destruct k as [|c k]; rewrite ?Ascii.eqb_refl.
Qed.

Lemma showExtensionDialog_spec s options k :
  opt_key options = Some k → k ≠ "" →
  let s' := fst (showExtensionDialog options s) in
  ∃ d,
    snd (showExtensionDialog options s) = Some d ∧
    key d = extensionKey k ∧
    d ∈ dialogStack s' ∧
    activeKey s' = Some (extensionKey k) ∧
    (extensionKey k ∈ keys s → keys s' ≡ₚ keys s).
Proof.
  intros Hk Hnamed. simpl.
  destruct (list_find (λ x, key x = extensionKey k) (dialogStack s))
    as [[i d]|] eqn:Hfind.
  - rewrite (showExtensionDialog_existing _ _ _ _ _ Hk Hnamed Hfind).
    destruct (reshow_result _ _ _ _ Hfind) as [b Hresult].
    eexists. split_and!; [exact Hresult|..].
    + by apply list_find_Some in Hfind as (_ & ? & _).
    + by apply reshow_result_in.
    + by eapply activeKey_reshow.
    + intros _. by eapply keys_reshow.
  - apply find_key_None in Hfind.
    rewrite (showExtensionDialog_fresh _ _ _ Hk Hnamed Hfind).
    destruct (createDialog_result (extensionKey k) options s) as [b Hresult].
    eexists. split_and!; [exact Hresult|done|..].
    + by apply createDialog_result_in.
    + by rewrite createDialog_store.
    + intros Hin. by destruct Hfind.
Qed.

(** C8. [showExtension] with a key [k] creates or addresses the entry keyed
    ["extension-" + k], or keyed [k] itself when [k] already starts with
    ["extension-"]: that entry is returned, is open and active afterwards,
    and when it existed before no entry is added.  So [{key: 'foo'}] gives
    the key [extension-foo] and [{key: 'extension-foo'}] the same key,
    not a doubly prefixed one. *)
Theorem extension_keys_are_namespaced :
  (∀ s options k,
     opt_key options = Some k → k ≠ "" →
     let extKey :=
       if String.prefix "extension-" k then k else "extension-" +:+ k in
     let s' := fst (showExtensionDialog options s) in
     ∃ d,
       snd (showExtensionDialog options s) = Some d ∧
       key d = extKey ∧
       d ∈ dialogStack s' ∧
       isDialogOpen extKey s' = true ∧
       activeKey s' = Some extKey ∧
       (extKey ∈ keys s → keys s' ≡ₚ keys s)) ∧
  keys (fst (showExtensionDialog (plainOptions "foo") initialStore))
    = ["extension-foo"] ∧
  keys (fst (showExtensionDialog (plainOptions "extension-foo") initialStore))
    = ["extension-foo"] ∧
  keys (run [ShowExtension (plainOptions "foo");
             ShowExtension (plainOptions "extension-foo")] initialStore)
    = ["extension-foo"] ∧
  (∀ k, extensionKey (extensionKey k) = extensionKey k).
Proof.
  split_and!; [|reflexivity..|apply extensionKey_idempotent].
  intros s options k Hk Hnamed.
  change (if String.prefix "extension-" k then k else "extension-" +:+ k)
    with (extensionKey k).
  simpl.
  destruct (showExtensionDialog_spec s options k Hk Hnamed)
    as (d & Hresult & Hkey & Hin & Hactive & Hsame).
  exists d. split_and!; [done..| |done|done].
  apply isDialogOpen_keys. rewrite <-Hkey. by apply list_elem_of_fmap_2.
Qed.

Lemma extension_keys_are_namespaced_witness :
  let s' := fst (showExtensionDialog (plainOptions "c") sampleStore) in
  ∃ d,
    snd (showExtensionDialog (plainOptions "c") sampleStore) = Some d ∧
    key d = "extension-c" ∧
    d ∈ dialogStack s' ∧
    isDialogOpen "extension-c" s' = true ∧
    activeKey s' = Some "extension-c" ∧
    ("extension-c" ∈ keys sampleStore → keys s' ≡ₚ keys sampleStore).
Proof.
  apply (proj1 extension_keys_are_namespaced sampleStore
           (plainOptions "c") "c").
  - reflexivity.
  - discriminate.
Defined.

(** *** Eviction among dialogs of the default priority *)

Lemma insertIndex_front d l :
  (∀ x, head l = Some x → number_le (priority x) (priority d)) →
  insertIndex d l = 0.
Proof.
  intros Hhead. destruct l as [|x l]; [done|].
  unfold insertIndex. simpl. rewrite decide_True; [done|]. by apply Hhead.
Qed.

Lemma afterEviction_room l : length l < 10 → afterEviction l = l.
Proof.
  intros. unfold afterEviction. rewrite bool_decide_eq_false_2; [done|lia].
Qed.

(** A dialog of the default priority shown into a stack of such dialogs
    goes to index 0. *)
Lemma showDialog_fresh_default options draw s :
  opt_priority options = None →
  resolveKey options draw ∉ keys s →
  allDefault s →
  let s' := fst (showDialog options draw s) in
  keys s' = resolveKey options draw :: (key <$> afterEviction (dialogStack s)) ∧
  allDefault s'.
Proof.
  intros Hp Hfresh Hall. simpl.
  rewrite showDialog_fresh by done. rewrite createDialog_store.
  set (d := newDialog (resolveKey options draw) options).
  set (l := afterEviction (dialogStack s)).
  assert (Forall (λ p, p = Num 1) (priority <$> l)) as Hl.
  { unfold allDefault in Hall. rewrite Forall_forall in Hall |- *.
    intros p Hin. apply Hall. eapply elem_of_sublist; [exact Hin|].
    apply fmap_sublist, afterEviction_sublist. }
  assert (priority d = Num 1) as Hd by (subst d; simpl; by rewrite Hp).
  assert (placed d l = d :: l) as Hplaced.
  { unfold placed. rewrite insertIndex_front; [done|].
    intros x Hx. rewrite Hd.
    rewrite Forall_fmap, Forall_forall in Hl.
    rewrite (Hl x); [done|]. destruct l; by simplify_eq/=; left. }
  unfold allDefault.
  rewrite keys_update, priorities_update. unfold keys, priorities. simpl.
  rewrite Hplaced. split; [done|]. by constructor.
Qed.

Lemma run_cons op ops s : run (op :: ops) s = run ops (step op s).
Proof. done. Qed.

Lemma run_app ops1 ops2 s : run (ops1 ++ ops2) s = run ops2 (run ops1 s).
Proof. apply foldl_app. Qed.

(** While there is room, each new dialog lands in front of the others. *)
Lemma run_fresh_shows shows s :
  Forall defaultPriority shows →
  NoDup (shownKey <$> shows) →
  (∀ k, k ∈ shownKey <$> shows → k ∉ keys s) →
  length (keys s) + length shows ≤ 10 →
  allDefault s →
  keys (run (showOp <$> shows) s) = reverse (shownKey <$> shows) ++ keys s ∧
  allDefault (run (showOp <$> shows) s).
Proof.
  revert s. induction shows as [|od shows IH]; intros s Hp Hnd Hfresh Hlen Hall.
  { done. }
  apply Forall_cons in Hp as [Hp Hps].
  rewrite fmap_cons in Hnd. apply NoDup_cons in Hnd as [Hk Hnd].
  destruct (showDialog_fresh_default (fst od) (snd od) s) as [Hkeys Hall'];
    [done|apply Hfresh; by left|done|].
  simpl in Hlen.
  rewrite afterEviction_room in Hkeys
    by (unfold keys in Hlen; rewrite length_fmap in Hlen; lia).
  rewrite fmap_cons, run_cons.
  change (step (showOp od) s) with (fst (showDialog (fst od) (snd od) s)).
  destruct (IH (fst (showDialog (fst od) (snd od) s))) as [-> ?].
  - done.
  - done.
  - intros k Hin. rewrite Hkeys. intros [->|Hold]%elem_of_cons; [done|].
    by apply (Hfresh k); [right|].
  - rewrite Hkeys. unfold keys in Hlen |- *.
    rewrite length_cons, !length_fmap in *. lia.
  - done.
  - split; [|done].
    rewrite Hkeys, fmap_cons, reverse_cons, <-app_assoc. done.
Qed.

(** C1, as stated, fails: after ten dialogs of the default priority and an
    eleventh, the key of the first one is still open. *)
Lemma first_dialog_survives_eleventh :
  isDialogOpen "d1"
    (run (tenShows ++ [Show (plainOptions "d11") []]) initialStore) ≠ false.
Proof. vm_compute. discriminate. Qed.

(** C1, amended.  From the empty store, ten dialogs are shown, each with
    the default priority and a key of its own, and then an eleventh with a
    fresh key and the default priority.  Afterwards the key of the dialog
    shown first is still open, the key of the dialog shown tenth is not:
    the entry at index 0, which the capacity policy evicts, is the one
    inserted last.  The stack holds the eleventh, then the ninth down to
    the first. *)
Theorem eleventh_show_evicts_tenth first middle tenth eleventh :
  length middle = 8 →
  let shows := first :: middle ++ [tenth; eleventh] in
  Forall defaultPriority shows →
  NoDup (shownKey <$> shows) →
  let s' := run (showOp <$> shows) initialStore in
  isDialogOpen (shownKey first) s' = true ∧
  isDialogOpen (shownKey tenth) s' = false ∧
  keys s' = shownKey eleventh :: reverse (shownKey <$> first :: middle).
Proof.
  intros Hmiddle shows Hp Hnd s'.
  set (ten := first :: middle ++ [tenth]).
  assert (shows = ten ++ [eleventh]) as Hshows.
  { subst shows ten. simpl. by rewrite <-app_assoc. }
  assert (length ten = 10) as Hten.
  { subst ten. simpl. rewrite length_app. simpl. lia. }
  rewrite Hshows in Hp, Hnd.
  apply Forall_app in Hp as [Hp Hp11]. apply Forall_cons in Hp11 as [Hp11 _].
  rewrite fmap_app in Hnd. apply NoDup_app in Hnd as (Hnd & Hfresh11 & _).
  destruct (run_fresh_shows ten initialStore) as [Hkeys Hall];
    [done|done|by intros k _ ?%elem_of_nil|rewrite Hten; simpl; lia
    |by constructor|].
  rewrite app_nil_r in Hkeys.
  assert (keys s' = shownKey eleventh :: reverse (shownKey <$> first :: middle))
    as Hkeys'.
  { subst s'. rewrite Hshows, fmap_app, run_app.
    set (s10 := run (showOp <$> ten) initialStore) in *.
    change (run (showOp <$> [eleventh]) s10)
      with (fst (showDialog (fst eleventh) (snd eleventh) s10)).
    destruct (showDialog_fresh_default (fst eleventh) (snd eleventh) s10)
      as [-> _].
    - done.
    - rewrite Hkeys, elem_of_reverse. intros Hin.
      apply (Hfresh11 _ Hin). by left.
    - done.
    - f_equal. unfold afterEviction.
      assert (length (dialogStack s10) = 10) as Hfull.
      { rewrite <-(length_fmap key). fold (keys s10).
        by rewrite Hkeys, length_reverse, length_fmap. }
      rewrite bool_decide_eq_true_2 by lia.
      rewrite fmap_drop. fold (keys s10). rewrite Hkeys.
      subst ten. by rewrite app_comm_cons, fmap_app, reverse_app. }
  split_and!; [| |done].
  - apply isDialogOpen_keys. rewrite Hkeys'. right.
    rewrite elem_of_reverse. by left.
  - apply not_true_is_false. rewrite isDialogOpen_keys, Hkeys'.
    subst ten. rewrite app_comm_cons, fmap_app in Hnd, Hfresh11.
    apply NoDup_app in Hnd as (_ & Hfresh10 & _).
    rewrite elem_of_cons, elem_of_reverse. intros [Heq|Hin].
    + apply (Hfresh11 (shownKey tenth)); [|rewrite Heq; by left].
      apply elem_of_app. right. by left.
    + apply (Hfresh10 _ Hin). by left.
Qed.

Lemma eleventh_show_evicts_tenth_witness :
  let first := plainShow "d1" in
  let middle :=
    plainShow <$> ["d2"; "d3"; "d4"; "d5"; "d6"; "d7"; "d8"; "d9"] in
  let tenth := plainShow "d10" in
  let eleventh := plainShow "d11" in
  let s' :=
    run (showOp <$> first :: middle ++ [tenth; eleventh]) initialStore in
  isDialogOpen (shownKey first) s' = true ∧
  isDialogOpen (shownKey tenth) s' = false ∧
  keys s' = shownKey eleventh :: reverse (shownKey <$> first :: middle).
Proof.
  intros first middle tenth eleventh.
  apply (eleventh_show_evicts_tenth first middle tenth eleventh).
  - reflexivity.
  - apply (bool_decide_unpack _). vm_compute. exact I.
  - apply (bool_decide_unpack _). vm_compute. exact I.
Defined.

(** ** Further properties of the store *)

(** *** Keys *)

(** X14. In every reachable state the keys of the stack are pairwise
    distinct and none of them is the empty string: [show] replaces an
    empty key by a generated one, [showExtension] rejects it, and an entry
    is only created when its key is not in the stack. *)
Theorem keys_distinct_and_named s :
  reachable s →
  NoDup (keys s) ∧ ("" ∉ keys s) ∧ isDialogOpen "" s = false.
Proof.
  intros [_ Hnd Hnamed _ _]%wellFormed_reachable. split_and!; [done..|].
  apply not_true_is_false. by rewrite isDialogOpen_keys.
Qed.

Lemma keys_distinct_and_named_witness :
  NoDup (keys sampleStore) ∧ ("" ∉ keys sampleStore) ∧
  isDialogOpen "" sampleStore = false.
Proof. exact (keys_distinct_and_named sampleStore sampleStore_reachable). Defined.

(** *** Missing keys *)

Lemma riseDialog_absent k s : k ∉ keys s → riseDialog k s = s.
Proof.
  intros Hk. apply riseDialog_missing.
  destruct (list_find _ (dialogStack s)) as [[i d]|] eqn:Hfind; [|done].
  destruct Hk. apply list_find_Some in Hfind as (Hd & <- & _).
  apply list_elem_of_fmap_2. by eapply list_elem_of_lookup_2.
Qed.

Lemma closeDialog_absent k s : k ∉ keys s → closeDialog (Some k) s = s.
Proof.
  intros Hk. apply closeDialog_missing. unfold closeTarget.
  destruct (list_find _ (dialogStack s)) as [[i d]|] eqn:Hfind; [|done].
  destruct Hk. apply list_find_Some in Hfind as (Hd & Heq & _).
  injection Heq as <-.
  apply list_elem_of_fmap_2. by eapply list_elem_of_lookup_2.
Qed.

(** X1. [rise] and [close] on a key that is not in the stack change
    nothing at all: the stack, the active key and the trace of [onClose]
    calls are as before.  So is [close()] without a key when no key is
    active. *)
Theorem missing_key_is_noop s k :
  k ∉ keys s →
  riseDialog k s = s ∧
  closeDialog (Some k) s = s ∧
  (activeKey s = None → closeDialog None s = s).
Proof.
  intros Hk. split_and!.
  - by apply riseDialog_absent.
  - by apply closeDialog_absent.
  - intros Hnone. apply closeDialog_missing. unfold closeTarget.
    rewrite Hnone. apply list_find_None, Forall_forall. by intros d _.
Qed.

Lemma missing_key_is_noop_witness :
  riseDialog "b" fullStore = fullStore ∧
  closeDialog (Some "b") fullStore = fullStore ∧
  (activeKey fullStore = None → closeDialog None fullStore = fullStore).
Proof.
  apply (missing_key_is_noop fullStore "b").
  apply (bool_decide_unpack _). vm_compute. exact I.
Defined.

(** *** Closing *)

Lemma closeTarget_key k s i d :
  list_find (λ x, key x = k) (dialogStack s) = Some (i, d) →
  closeTarget (Some k) s = Some (i, d).
Proof.
  intros (Hd & Hk & Hfirst)%list_find_Some. apply list_find_Some.
  split_and!; [done|by rewrite Hk|].
  intros j y Hy Hj Heq. apply (Hfirst j y Hy Hj). congruence.
Qed.

Lemma closeTarget_active k s i d :
  activeKey s = Some k →
  list_find (λ x, key x = k) (dialogStack s) = Some (i, d) →
  closeTarget None s = Some (i, d).
Proof.
  intros Hactive Hfind. apply (closeTarget_key k s) in Hfind.
  unfold closeTarget in *. by rewrite Hactive.
Qed.

(** Taking the entry keyed [k] out of a stack of distinct keys leaves no
    entry keyed [k]. *)
Lemma delete_key_absent (l : list DialogInstance) i d :
  NoDup (key <$> l) → l !! i = Some d → key d ∉ key <$> delete i l.
Proof.
  intros Hnd Hd.
  rewrite (delete_Permutation l i d Hd), fmap_cons in Hnd.
  by apply NoDup_cons in Hnd as [? _].
Qed.

Lemma onCloseCalls_invoke cb s :
  onCloseCalls (invoke cb s) = calledBack cb (onCloseCalls s).
Proof. by destruct cb. Qed.

(** X2. In a reachable state, [close] with the key of the entry [d] at
    index [i] calls [d]'s [onClose] callback, if it has one, exactly once
    and no other callback; it removes [d] and nothing else from the stack,
    the other entries keeping their order and their data; afterwards the
    key is not open, and the active key is the key of the last entry left,
    or null when none is left. *)
Theorem close_removes_entry s k i d :
  reachable s →
  list_find (λ x, key x = k) (dialogStack s) = Some (i, d) →
  let s' := closeDialog (Some k) s in
  sameEntries (dialogStack s') (delete i (dialogStack s)) ∧
  isDialogOpen k s' = false ∧
  onCloseCalls s' = calledBack (onClose (dialogComponentProps d)) (onCloseCalls s) ∧
  activeKey s' = key <$> last (delete i (dialogStack s)) ∧
  consoleErrors s' = consoleErrors s.
Proof.
  intros [_ Hnd _ _ _]%wellFormed_reachable Hfind. simpl.
  rewrite (closeDialog_found _ _ _ _ (closeTarget_key _ _ _ _ Hfind)).
  apply list_find_Some in Hfind as (Hd & <- & _).
  split_and!.
  - apply sameEntries_update.
  - apply not_true_is_false. rewrite isDialogOpen_keys, keys_update.
    by apply delete_key_absent.
  - rewrite onCloseCalls_update. simpl. apply onCloseCalls_invoke.
  - done.
  - simpl. by destruct (onClose (dialogComponentProps d)).
Qed.

Lemma close_removes_entry_witness :
  let d := setCloseOnEscape (Some false) (newDialog "a" (plainOptions "a")) in
  let s' := closeDialog (Some "a") sampleStore in
  sameEntries (dialogStack s') (delete 2 (dialogStack sampleStore)) ∧
  isDialogOpen "a" s' = false ∧
  onCloseCalls s' =
    calledBack (onClose (dialogComponentProps d)) (onCloseCalls sampleStore) ∧
  activeKey s' = key <$> last (delete 2 (dialogStack sampleStore)) ∧
  consoleErrors s' = consoleErrors sampleStore.
Proof.
  apply (close_removes_entry sampleStore "a" 2 _ sampleStore_reachable).
  reflexivity.
Defined.

(** X3. In a reachable state closing the same key twice is closing it
    once: the second call, such as the [onAfterHide] callback firing after
    an explicit [close], finds no entry and changes nothing; in particular
    [onClose] is not called again. *)
Theorem close_twice s k :
  reachable s →
  closeDialog (Some k) (closeDialog (Some k) s) = closeDialog (Some k) s.
Proof.
  intros [_ Hnd _ _ _]%wellFormed_reachable.
  destruct (list_find (λ x, key x = k) (dialogStack s)) as [[i d]|] eqn:Hfind.
  - apply closeDialog_absent.
    rewrite (closeDialog_found _ _ _ _ (closeTarget_key _ _ _ _ Hfind)).
    rewrite keys_update.
    apply list_find_Some in Hfind as (Hd & <- & _).
    by apply delete_key_absent.
  - apply find_key_None in Hfind.
    by rewrite (closeDialog_absent k s Hfind), (closeDialog_absent k s Hfind).
Qed.

Lemma close_twice_witness :
  closeDialog (Some "b") (closeDialog (Some "b") sampleStore)
    = closeDialog (Some "b") sampleStore.
Proof. exact (close_twice sampleStore "b" sampleStore_reachable). Defined.

(** X4. In a reachable state with a non-empty stack, [close()] without a
    key removes exactly one entry, the active one; so calling it as many
    times as there are entries empties the stack and leaves no active
    key. *)
Theorem close_active_drains s :
  reachable s →
  (dialogStack s ≠ [] →
   ∃ k, activeKey s = Some k ∧
        closeDialog None s = closeDialog (Some k) s ∧
        isDialogOpen k (closeDialog None s) = false ∧
        S (length (dialogStack (closeDialog None s)))
          = length (dialogStack s)) ∧
  dialogStack (run (replicate (length (dialogStack s)) (Close None)) s) = [] ∧
  activeKey (run (replicate (length (dialogStack s)) (Close None)) s) = None.
Proof.
  assert (∀ t, reachable t → dialogStack t ≠ [] →
    ∃ k, activeKey t = Some k ∧
         closeDialog None t = closeDialog (Some k) t ∧
         isDialogOpen k (closeDialog None t) = false ∧
         S (length (dialogStack (closeDialog None t)))
           = length (dialogStack t)) as Hone.
  { intros t Ht Hne.
    pose proof (wellFormed_reachable t Ht) as [_ Hnd _ _ Hlive].
    unfold live in Hlive.
    destruct (activeKey t) as [k|] eqn:Hactive; last first.
    { unfold keys in Hlive. by apply fmap_nil_inv in Hlive. }
    destruct (find_key_Some _ _ Hlive) as [[i d] Hfind].
    exists k. split; [done|].
    assert (closeDialog None t = closeDialog (Some k) t) as Heq.
    { rewrite (closeDialog_found _ _ _ _ (closeTarget_active _ _ _ _ Hactive Hfind)).
      by rewrite (closeDialog_found _ _ _ _ (closeTarget_key _ _ _ _ Hfind)). }
    rewrite Heq.
    rewrite (closeDialog_found _ _ _ _ (closeTarget_key _ _ _ _ Hfind)).
    apply list_find_Some in Hfind as (Hd & <- & _).
    split_and!; [done| |].
    - apply not_true_is_false. rewrite isDialogOpen_keys, keys_update.
      by apply delete_key_absent.
    - rewrite length_update. simpl.
      rewrite length_delete by (by eexists).
      apply lookup_lt_Some in Hd. lia. }
  intros Hs. split; [by apply Hone|].
  remember (length (dialogStack s)) as n eqn:Hn.
  revert s Hs Hn. induction n as [|n IH]; intros s Hs Hn.
  - simpl. symmetry in Hn. apply nil_length_inv in Hn.
    split; [done|].
    pose proof (wellFormed_reachable s Hs) as [_ _ _ _ Hlive].
    unfold live, keys in Hlive. rewrite Hn in Hlive.
    destruct (activeKey s); [by apply elem_of_nil in Hlive|done].
  - change (replicate (S n) (Close None))
      with (Close None :: replicate n (Close None)).
    rewrite run_cons.
    destruct (Hone s Hs) as (k & _ & _ & _ & Hlen).
    { intros Hnil. by rewrite Hnil in Hn. }
    apply IH.
    + by apply (reachable_step (Close None)).
    + change (step (Close None) s) with (closeDialog None s). lia.
Qed.

Lemma close_active_drains_witness :
  (dialogStack sampleStore ≠ [] →
   ∃ k, activeKey sampleStore = Some k ∧
        closeDialog None sampleStore = closeDialog (Some k) sampleStore ∧
        isDialogOpen k (closeDialog None sampleStore) = false ∧
        S (length (dialogStack (closeDialog None sampleStore)))
          = length (dialogStack sampleStore)) ∧
  dialogStack
    (run (replicate (length (dialogStack sampleStore)) (Close None))
       sampleStore) = [] ∧
  activeKey
    (run (replicate (length (dialogStack sampleStore)) (Close None))
       sampleStore) = None.
Proof. exact (close_active_drains sampleStore sampleStore_reachable). Defined.

(** *** Creating and showing *)

Lemma list_find_add {A} (P : A → Prop) `{!∀ x, Decision (P x)}
    (l : list A) j d :
  Forall (λ x, ¬ P x) l → P d → j ≤ length l →
  list_find P (take j l ++ d :: drop j l) = Some (j, d).
Proof.
  intros Hl Hd Hj. apply list_find_Some. split_and!.
  - by apply lookup_add.
  - done.
  - intros i y Hy Hi.
    rewrite lookup_app_l in Hy by (rewrite length_take; lia).
    apply lookup_take_Some in Hy as [Hy _].
    rewrite Forall_forall in Hl. apply Hl. by eapply list_elem_of_lookup_2.
Qed.

(** The escape pass gives the first entry keyed by the active key the flag
    its [closable] calls for. *)
Lemma lookup_update_active s j d :
  list_find (λ x, Some (key x) = activeKey s) (dialogStack s) = Some (j, d) →
  dialogStack (updateCloseOnEscapeStates s) !! j
    = Some (setCloseOnEscape
              (Some (truthy (closable (dialogComponentProps d)))) d).
Proof.
  intros Hfind. unfold updateCloseOnEscapeStates. simpl.
  rewrite list_lookup_imap, Hfind. simpl.
  apply list_find_Some in Hfind as (-> & _). simpl.
  by rewrite bool_decide_eq_true_2.
Qed.

Lemma createDialog_fresh_result k options s :
  k ∉ keys s →
  snd (createDialog k options s)
    = Some (setCloseOnEscape
              (Some (truthy (closable
                               (dialogComponentProps (newDialog k options)))))
              (newDialog k options)).
Proof.
  intros Hfresh. unfold createDialog. cbn [snd].
  rewrite insertDialogByPriority_placed.
  set (l := dialogStack (if bool_decide (10 ≤ length (dialogStack s))
                         then setStack (drop 1 (dialogStack s)) s else s)).
  assert (l = afterEviction (dialogStack s)) as Hl.
  { subst l. unfold afterEviction. by case_bool_decide. }
  apply lookup_update_active. cbn [activeKey setActiveKey dialogStack setStack].
  fold l. unfold placed. apply list_find_add.
  - apply Forall_forall. intros x Hx Heq. apply Hfresh.
    injection Heq as <-. apply list_elem_of_fmap_2.
    rewrite Hl in Hx. eapply elem_of_sublist; [exact Hx|].
    apply afterEviction_sublist.
  - done.
  - apply insertIndex_le.
Qed.

(** X8. [show] with a key that is not in the stack returns the entry it
    creates, and that entry is visible, not maximized and active, and its
    [closeOnEscape] flag is the truth value of its [closable] option: a
    [maximized] or [closeOnEscape] passed by the caller is overridden.
    [closable] defaults to [true], so without dialog component props the
    new entry can be closed with Escape. *)
Theorem created_dialog_flags s options draw :
  resolveKey options draw ∉ keys s →
  let s' := fst (showDialog options draw s) in
  ∃ d,
    snd (showDialog options draw s) = Some d ∧
    d ∈ dialogStack s' ∧
    key d = resolveKey options draw ∧
    activeKey s' = Some (key d) ∧
    visible d = true ∧
    maximized (dialogComponentProps d) = Some false ∧
    closeOnEscape (dialogComponentProps d)
      = Some (truthy (closable (dialogComponentProps d))) ∧
    priority d = default (Num 1) (opt_priority options) ∧
    (opt_dialogComponentProps options = None →
     closable (dialogComponentProps d) = Some true ∧
     closeOnEscape (dialogComponentProps d) = Some true).
Proof.
  intros Hfresh s'. subst s'. rewrite showDialog_fresh by done.
  pose proof (createDialog_fresh_result _ options s Hfresh) as Hresult.
  eexists. split_and!; [exact Hresult|by apply createDialog_result_in|..];
    try done.
  intros Hnone. simpl. by rewrite Hnone.
Qed.

Lemma created_dialog_flags_witness :
  let s' := fst (showDialog stubbornOptions [] sampleStore) in
  ∃ d,
    snd (showDialog stubbornOptions [] sampleStore) = Some d ∧
    d ∈ dialogStack s' ∧
    key d = "x" ∧
    activeKey s' = Some (key d) ∧
    visible d = true ∧
    maximized (dialogComponentProps d) = Some false ∧
    closeOnEscape (dialogComponentProps d)
      = Some (truthy (closable (dialogComponentProps d))) ∧
    priority d = Num 3 ∧
    (opt_dialogComponentProps stubbornOptions = None →
     closable (dialogComponentProps d) = Some true ∧
     closeOnEscape (dialogComponentProps d) = Some true).
Proof.
  apply (created_dialog_flags sampleStore stubbornOptions []).
  apply (bool_decide_unpack _). vm_compute. exact I.
Defined.

(** X6. [show] always returns an entry, whatever the state and the
    options: the entry has the requested key, or the generated one when
    the key is missing or empty, it is visible and in the stack, its key
    is open and is the active key. *)
Theorem show_returns_open_active s options draw :
  let s' := fst (showDialog options draw s) in
  ∃ d,
    snd (showDialog options draw s) = Some d ∧
    key d = resolveKey options draw ∧
    (opt_key options = None ∨ opt_key options = Some "" →
     key d = genDialogKey draw) ∧
    visible d = true ∧
    d ∈ dialogStack s' ∧
    isDialogOpen (key d) s' = true ∧
    activeKey s' = Some (key d).
Proof.
  cbv zeta.
  assert (opt_key options = None ∨ opt_key options = Some "" →
          resolveKey options draw = genDialogKey draw) as Hgen.
  { unfold resolveKey. by intros [->| ->]. }
  unfold showDialog.
  destruct (list_find _ (dialogStack s)) as [[i d]|] eqn:Hfind.
  - destruct (reshow_result _ _ _ _ Hfind) as [b Hresult].
    pose proof (reshow_result_in _ _ _ _ Hresult) as Hin.
    apply list_find_Some in Hfind as Hd. destruct Hd as (_ & Hk & _).
    eexists. split_and!; [exact Hresult|done|by rewrite <-Hk in Hgen|done|done|..].
    + apply isDialogOpen_keys. by apply (list_elem_of_fmap_2 key) in Hin.
    + rewrite (activeKey_reshow _ _ _ _ Hfind). simpl. by rewrite Hk.
  - destruct (createDialog_result (resolveKey options draw) options s)
      as [b Hresult].
    pose proof (createDialog_result_in _ _ _ _ Hresult) as Hin.
    eexists. split_and!; [exact Hresult|done|done|done|done|..].
    + apply isDialogOpen_keys. by apply (list_elem_of_fmap_2 key) in Hin.
    + by rewrite createDialog_store.
Qed.

(** *** Extension dialogs *)

Lemma extensionKey_prefixed k :
  String.prefix "extension-" (extensionKey k) = true.
Proof.
  unfold extensionKey.
  destruct (String.prefix "extension-" k) eqn:Hprefix; [done|].
  simpl. by destruct k as [|c k]; rewrite ?Ascii.eqb_refl.
Qed.

(** X5. [showExtension] without a key, or with the empty key, is refused:
    it returns nothing, logs one line on the console, and leaves the
    stack, the active key and the [onClose] trace untouched. *)
Theorem showExtension_requires_key s options :
  opt_key options = None ∨ opt_key options = Some "" →
  snd (showExtensionDialog options s) = None ∧
  dialogStack (fst (showExtensionDialog options s)) = dialogStack s ∧
  activeKey (fst (showExtensionDialog options s)) = activeKey s ∧
  onCloseCalls (fst (showExtensionDialog options s)) = onCloseCalls s ∧
  consoleErrors (fst (showExtensionDialog options s))
    = "Extension dialog key is required" :: consoleErrors s.
Proof. unfold showExtensionDialog. by intros [->| ->]. Qed.

Lemma showExtension_requires_key_witness :
  snd (showExtensionDialog keylessOptions sampleStore) = None ∧
  dialogStack (fst (showExtensionDialog keylessOptions sampleStore))
    = dialogStack sampleStore ∧
  activeKey (fst (showExtensionDialog keylessOptions sampleStore))
    = activeKey sampleStore ∧
  onCloseCalls (fst (showExtensionDialog keylessOptions sampleStore))
    = onCloseCalls sampleStore ∧
  consoleErrors (fst (showExtensionDialog keylessOptions sampleStore))
    = "Extension dialog key is required" :: consoleErrors sampleStore.
Proof.
  apply (showExtension_requires_key sampleStore keylessOptions).
  left. reflexivity.
Defined.

(** X7. Whatever key an extension passes, the entry [showExtension]
    hands back, and the key it makes active, start with ["extension-"];
    and the key [show] generates for a request without one is never in
    that namespace. *)
Theorem extension_dialogs_stay_in_namespace :
  (∀ s options d,
     snd (showExtensionDialog options s) = Some d →
     String.prefix "extension-" (key d) = true ∧
     activeKey (fst (showExtensionDialog options s)) = Some (key d)) ∧
  (∀ draw, String.prefix "extension-" (genDialogKey draw) = false) ∧
  (∀ k draw, extensionKey k ≠ genDialogKey draw).
Proof.
  split_and!.
  - intros s options d Hresult.
    destruct (opt_key options) as [k|] eqn:Hk; last first.
    { unfold showExtensionDialog in Hresult. by rewrite Hk in Hresult. }
    destruct (decide (k = "")) as [->|Hnamed].
    { unfold showExtensionDialog in Hresult. by rewrite Hk in Hresult. }
    destruct (showExtensionDialog_spec s options k Hk Hnamed)
      as (d' & Hresult' & Hkey & _ & Hactive & _).
    assert (d' = d) as -> by congruence.
    rewrite Hkey. split; [apply extensionKey_prefixed|done].
  - done.
  - intros k draw Heq.
    pose proof (extensionKey_prefixed k) as Hprefix.
    by rewrite Heq in Hprefix.
Qed.

Lemma extension_dialogs_stay_in_namespace_witness :
  String.prefix "extension-"
    (key (setCloseOnEscape (Some true)
            (setVisible true sampleEntry))) = true ∧
  activeKey (fst (showExtensionDialog (plainOptions "c") sampleStore))
    = Some (key (setCloseOnEscape (Some true) (setVisible true sampleEntry))).
Proof.
  apply (proj1 extension_dialogs_stay_in_namespace sampleStore
           (plainOptions "c")).
  reflexivity.
Defined.

(** *** Callbacks and visibility *)

(** X11. Of the four operations only [close] ever calls an [onClose]
    callback, and it calls that of the entry it removes, once: [show],
    [showExtension] and [rise] leave the trace of calls as it is, also
    when [show] evicts an entry. *)
Theorem only_close_calls_onClose op s :
  onCloseCalls (step op s) =
    match op with
    | Close options =>
        match closeTarget options s with
        | Some (_, d) =>
            calledBack (onClose (dialogComponentProps d)) (onCloseCalls s)
        | None => onCloseCalls s
        end
    | _ => onCloseCalls s
    end.
Proof.
  destruct op as [options draw|options|k|options]; simpl.
  - unfold showDialog.
    destruct (list_find _ (dialogStack s)) as [[i d]|] eqn:Hfind.
    + by rewrite (reshow_store _ _ _ _ Hfind).
    + by rewrite createDialog_store.
  - unfold showExtensionDialog.
    destruct (opt_key options) as [k|]; [|done].
    case_bool_decide; [done|].
    destruct (list_find _ (dialogStack s)) as [[i d]|] eqn:Hfind.
    + by rewrite (reshow_store _ _ _ _ Hfind).
    + by rewrite createDialog_store.
  - destruct (list_find (λ x, key x = k) (dialogStack s)) as [[i d]|]
      eqn:Hfind.
    + by rewrite (riseDialog_found _ _ _ _ Hfind).
    + by rewrite riseDialog_missing.
  - destruct (closeTarget options s) as [[i d]|] eqn:Hfind.
    + rewrite (closeDialog_found _ _ _ _ Hfind), onCloseCalls_update.
      simpl. apply onCloseCalls_invoke.
    + by rewrite closeDialog_missing.
Qed.

Lemma visible_update s :
  visible <$> dialogStack (updateCloseOnEscapeStates s)
    = visible <$> dialogStack s.
Proof. by apply updateCloseOnEscapeStates_fmap. Qed.

Lemma allVisible_sublist l l' :
  l' `sublist_of` l → allVisible l → allVisible l'.
Proof.
  unfold allVisible. rewrite !Forall_forall. intros Hsub Hall v Hv.
  apply Hall. eapply elem_of_sublist; [exact Hv|]. by apply fmap_sublist.
Qed.

Lemma allVisible_placed d l :
  visible d = true → allVisible l → allVisible (placed d l).
Proof.
  unfold allVisible. intros Hd Hl.
  rewrite (placed_Permutation d l), fmap_cons. by constructor.
Qed.

Lemma allVisible_step op s :
  allVisible (dialogStack s) → allVisible (dialogStack (step op s)).
Proof.
  intros Hall.
  assert (∀ k i d, list_find (λ x, key x = k) (dialogStack s) = Some (i, d) →
                   allVisible (dialogStack (fst (reshow i d s)))) as Hreshow.
  { intros k i d Hfind. rewrite (reshow_store _ _ _ _ Hfind).
    unfold allVisible. rewrite visible_update. simpl.
    apply allVisible_placed; [done|].
    eapply allVisible_sublist; [apply sublist_delete|done]. }
  assert (∀ k options, allVisible (dialogStack (fst (createDialog k options s))))
    as Hcreate.
  { intros k options. rewrite createDialog_store.
    unfold allVisible. rewrite visible_update. simpl.
    apply allVisible_placed; [done|].
    eapply allVisible_sublist; [apply afterEviction_sublist|done]. }
  destruct op as [options draw|options|k|options]; simpl.
  - unfold showDialog.
    destruct (list_find _ (dialogStack s)) as [[i d]|] eqn:Hfind; eauto.
  - unfold showExtensionDialog.
    destruct (opt_key options) as [k|]; [|done].
    case_bool_decide; [done|].
    destruct (list_find _ (dialogStack s)) as [[i d]|] eqn:Hfind; eauto.
  - destruct (list_find (λ x, key x = k) (dialogStack s)) as [[i d]|]
      eqn:Hfind.
    + rewrite (riseDialog_found _ _ _ _ Hfind).
      unfold allVisible. rewrite visible_update. simpl.
      apply list_find_Some in Hfind as (Hd & _ & _).
      apply allVisible_placed.
      * unfold allVisible in Hall. rewrite Forall_forall in Hall.
        apply Hall. apply list_elem_of_fmap_2. by eapply list_elem_of_lookup_2.
      * eapply allVisible_sublist; [apply sublist_delete|done].
    + by rewrite riseDialog_missing.
  - destruct (closeTarget options s) as [[i d]|] eqn:Hfind.
    + rewrite (closeDialog_found _ _ _ _ Hfind).
      unfold allVisible. rewrite visible_update. simpl.
      eapply allVisible_sublist; [apply sublist_delete|done].
    + by rewrite closeDialog_missing.
Qed.

(** X12. No operation of the store hides an entry: in every reachable
    state every entry of the stack has [visible = true], and an entry
    leaves the screen only by leaving the stack. *)
Theorem entries_stay_visible s :
  reachable s → ∀ d, d ∈ dialogStack s → visible d = true.
Proof.
  intros Hs.
  assert (allVisible (dialogStack s)) as Hall.
  { induction Hs; [constructor|by apply allVisible_step]. }
  intros d Hd. unfold allVisible in Hall. rewrite Forall_forall in Hall.
  apply Hall. by apply list_elem_of_fmap_2.
Qed.

Lemma entries_stay_visible_witness : visible sampleEntry = true.
Proof.
  apply (entries_stay_visible sampleStore sampleStore_reachable sampleEntry).
  apply (list_elem_of_lookup_2 _ 1). reflexivity.
Defined.

(** *** Stacks that differ in their escape flags only *)

Lemma sameEntries_sym l l' : sameEntries l l' → sameEntries l' l.
Proof. unfold sameEntries. by intros ->. Qed.

Lemma sameEntries_trans l1 l2 l3 :
  sameEntries l1 l2 → sameEntries l2 l3 → sameEntries l1 l3.
Proof. unfold sameEntries. by intros -> ->. Qed.

Lemma sameEntries_lookup l l' i d :
  sameEntries l l' → l !! i = Some d →
  ∃ d', l' !! i = Some d' ∧ setCloseOnEscape None d = setCloseOnEscape None d'.
Proof.
  intros Hsame Hd.
  assert ((setCloseOnEscape None <$> l') !! i
          = Some (setCloseOnEscape None d)) as Hd'.
  { rewrite <-Hsame, list_lookup_fmap. by rewrite Hd. }
  rewrite list_lookup_fmap in Hd'.
  apply fmap_Some in Hd' as (d' & ? & ?). eauto.
Qed.

Lemma sameEntries_delete l l' i :
  sameEntries l l' → sameEntries (delete i l) (delete i l').
Proof. unfold sameEntries. rewrite !list_fmap_delete. by intros ->. Qed.

Lemma setCloseOnEscape_erased b d d' :
  setCloseOnEscape None d = setCloseOnEscape None d' →
  setCloseOnEscape b d = setCloseOnEscape b d'.
Proof.
  intros Heq.
  change (setCloseOnEscape b (setCloseOnEscape None d)
          = setCloseOnEscape b (setCloseOnEscape None d')).
  by rewrite Heq.
Qed.

Section erased.
Context (P : DialogInstance → Prop) `{!∀ x, Decision (P x)}.
Context (P_erased : ∀ d d',
  setCloseOnEscape None d = setCloseOnEscape None d' → P d → P d').

Lemma sameEntries_find_Some l l' i d :
  sameEntries l l' →
  list_find P l = Some (i, d) →
  ∃ d', list_find P l' = Some (i, d') ∧
        setCloseOnEscape None d = setCloseOnEscape None d'.
Proof using P_erased.
  intros Hsame (Hd & HP & Hfirst)%list_find_Some.
  destruct (sameEntries_lookup _ _ _ _ Hsame Hd) as (d' & Hd' & Heq).
  exists d'. split; [|done]. apply list_find_Some. split_and!; [done|eauto|].
  intros j y Hy Hj HPy.
  destruct (sameEntries_lookup _ _ _ _ (sameEntries_sym _ _ Hsame) Hy)
    as (y' & Hy' & Heqy).
  apply (Hfirst j y' Hy' Hj). eauto.
Qed.

Lemma sameEntries_find_None l l' :
  sameEntries l l' → list_find P l = None → list_find P l' = None.
Proof using P_erased.
  intros Hsame Hnone.
  destruct (list_find P l') as [[i d]|] eqn:Hfind; [|done].
  destruct (sameEntries_find_Some _ _ _ _ (sameEntries_sym _ _ Hsame) Hfind)
    as (d' & Hfind' & _).
  congruence.
Qed.
End erased.

Lemma sameEntries_insertIndex d d' l l' :
  priority d = priority d' → sameEntries l l' →
  insertIndex d l = insertIndex d' l'.
Proof.
  intros Hp Hsame. unfold insertIndex. rewrite <-Hp.
  assert (∀ x y : DialogInstance,
            setCloseOnEscape None x = setCloseOnEscape None y →
            number_le (priority x) (priority d) →
            number_le (priority y) (priority d))
    as Herased.
  { intros x y Heq. apply (f_equal priority) in Heq. simpl in Heq.
    by rewrite Heq. }
  assert (length l = length l') as Hlen.
  { apply (f_equal length) in Hsame. by rewrite !length_fmap in Hsame. }
  destruct (list_find _ l) as [[i x]|] eqn:Hfind.
  - destruct (sameEntries_find_Some _ Herased _ _ _ _ Hsame Hfind)
      as (x' & -> & _).
    done.
  - by rewrite (sameEntries_find_None _ Herased _ _ Hsame Hfind), Hlen.
Qed.

Lemma sameEntries_placed d d' l l' :
  setCloseOnEscape None d = setCloseOnEscape None d' →
  sameEntries l l' →
  sameEntries (placed d l) (placed d' l').
Proof.
  intros Hd Hsame. unfold placed.
  rewrite (sameEntries_insertIndex d d' l l'); [|by apply (f_equal priority) in Hd|done].
  unfold sameEntries in *.
  by rewrite !fmap_app, !fmap_cons, !fmap_take, !fmap_drop, Hsame, Hd.
Qed.

(** The escape pass reads the keys, the [closable] options and the active
    key, never the flags it overwrites. *)
Lemma updateCloseOnEscapeStates_erased l l' a calls errors :
  sameEntries l l' →
  updateCloseOnEscapeStates
    {| dialogStack := l; activeKey := a;
       onCloseCalls := calls; consoleErrors := errors |}
  = updateCloseOnEscapeStates
      {| dialogStack := l'; activeKey := a;
         onCloseCalls := calls; consoleErrors := errors |}.
Proof.
  intros Hsame. unfold updateCloseOnEscapeStates, setStack. simpl. f_equal.
  assert (∀ x y : DialogInstance,
            setCloseOnEscape None x = setCloseOnEscape None y →
            Some (key x) = a → Some (key y) = a) as Herased.
  { intros x y Heq. apply (f_equal key) in Heq. simpl in Heq.
    by rewrite Heq. }
  assert (fst <$> list_find (λ d, Some (key d) = a) l
          = fst <$> list_find (λ d, Some (key d) = a) l' ∧
          list_find (λ d, Some (key d) = a) l
            ≫= (λ t, closable (dialogComponentProps (snd t)))
          = list_find (λ d, Some (key d) = a) l'
            ≫= (λ t, closable (dialogComponentProps (snd t)))) as [Hi Hc].
  { destruct (list_find _ l) as [[i x]|] eqn:Hfind.
    - destruct (sameEntries_find_Some _ Herased _ _ _ _ Hsame Hfind)
        as (x' & -> & Heq).
      split; [done|]. simpl.
      apply (f_equal (λ e, closable (dialogComponentProps e))) in Heq.
      exact Heq.
    - by rewrite (sameEntries_find_None _ Herased _ _ Hsame Hfind). }
  rewrite Hi, Hc. apply list_eq. intros i. rewrite !list_lookup_imap.
  destruct (l !! i) as [d|] eqn:Hd.
  - destruct (sameEntries_lookup _ _ _ _ Hsame Hd) as (d' & -> & Heq).
    simpl. f_equal. by apply setCloseOnEscape_erased.
  - apply lookup_ge_None in Hd.
    assert (length l = length l') as Hlen.
    { apply (f_equal length) in Hsame. by rewrite !length_fmap in Hsame. }
    rewrite (proj2 (lookup_ge_None l' i)); [done|lia].
Qed.

Lemma delete_placed d l : delete (insertIndex d l) (placed d l) = l.
Proof.
  unfold placed.
  pose proof (insertIndex_le d l) as Hle.
  rewrite <-(length_take_le l (insertIndex d l)) at 1 by done.
  rewrite delete_middle. apply take_drop.
Qed.

Lemma find_key_placed k d l :
  key d = k → k ∉ key <$> l →
  list_find (λ x, key x = k) (placed d l) = Some (insertIndex d l, d).
Proof.
  intros Hk Hfresh. unfold placed. apply list_find_add.
  - apply Forall_forall. intros x Hx Heq. apply Hfresh.
    rewrite <-Heq. by apply list_elem_of_fmap_2.
  - done.
  - apply insertIndex_le.
Qed.

Lemma key_erased d d' :
  setCloseOnEscape None d = setCloseOnEscape None d' → key d = key d'.
Proof. intros Heq. by apply (f_equal key) in Heq. Qed.

(** *** Promotion, again *)

(** X9. In a reachable state promoting the same key twice is promoting it
    once: the second [rise], such as a second pointer-down on the same
    dialog, leaves the whole store as the first one left it. *)
Theorem rise_twice s k :
  reachable s →
  riseDialog k (riseDialog k s) = riseDialog k s.
Proof.
  intros [_ Hnd _ _ _]%wellFormed_reachable.
  destruct (list_find (λ x, key x = k) (dialogStack s)) as [[i d]|] eqn:Hfind;
    last first.
  { by rewrite (riseDialog_missing k s Hfind), (riseDialog_missing k s Hfind). }
  rewrite (riseDialog_found _ _ _ _ Hfind).
  apply list_find_Some in Hfind as (Hd & Hk & _).
  set (rest := delete i (dialogStack s)).
  assert (k ∉ key <$> rest) as Hfresh.
  { rewrite <-Hk. by apply delete_key_absent. }
  set (s1 := updateCloseOnEscapeStates
               (setActiveKey (Some k) (setStack (placed d rest) s))).
  assert (sameEntries (dialogStack s1) (placed d rest)) as Hsame
    by apply sameEntries_update.
  assert (∀ x y : DialogInstance,
            setCloseOnEscape None x = setCloseOnEscape None y →
            key x = k → key y = k) as Herased.
  { intros x y Heq. by rewrite (key_erased _ _ Heq). }
  destruct (sameEntries_find_Some _ Herased _ _ _ _
              (sameEntries_sym _ _ Hsame) (find_key_placed k d rest Hk Hfresh))
    as (d1 & Hfind1 & Heq).
  rewrite (riseDialog_found _ _ _ _ Hfind1).
  apply (updateCloseOnEscapeStates_erased _ _ (Some k)
           (onCloseCalls s) (consoleErrors s)).
  rewrite <-(delete_placed d rest) at 2.
  apply sameEntries_placed; [done|]. by apply sameEntries_delete.
Qed.

Lemma rise_twice_witness :
  riseDialog "a" (riseDialog "a" sampleStore) = riseDialog "a" sampleStore.
Proof. exact (rise_twice sampleStore "a" sampleStore_reachable). Defined.

(** *** Showing and closing again *)

(** X10. Showing a dialog under a key that is not in the stack and closing
    it again gives back the stack [show] inserted into, entry for entry
    (escape flags apart): the old stack, or the old stack without its
    entry at index 0 when it was full, since an evicted entry does not
    come back.  The new dialog's [onClose] has been called, its key is not
    open, and the active key is the key of the last entry of the stack,
    whichever key was active before. *)
Theorem show_then_close s options draw :
  resolveKey options draw ∉ keys s →
  let k := resolveKey options draw in
  let s' := closeDialog (Some k) (fst (showDialog options draw s)) in
  sameEntries (dialogStack s') (afterEviction (dialogStack s)) ∧
  isDialogOpen k s' = false ∧
  activeKey s' = key <$> last (afterEviction (dialogStack s)) ∧
  onCloseCalls s'
    = calledBack (onClose (dialogComponentProps (newDialog k options)))
        (onCloseCalls s).
Proof.
  intros Hfresh k s'. subst s'.
  rewrite showDialog_fresh by done. rewrite createDialog_store. fold k.
  set (d := newDialog k options).
  set (l := afterEviction (dialogStack s)).
  assert (k ∉ key <$> l) as Hfresh'.
  { intros Hin. apply Hfresh. eapply elem_of_sublist; [exact Hin|].
    apply fmap_sublist, afterEviction_sublist. }
  set (s1 := updateCloseOnEscapeStates
               (setActiveKey (Some k) (setStack (placed d l) s))).
  assert (sameEntries (dialogStack s1) (placed d l)) as Hsame
    by apply sameEntries_update.
  assert (∀ x y : DialogInstance,
            setCloseOnEscape None x = setCloseOnEscape None y →
            key x = k → key y = k) as Herased.
  { intros x y Heq. by rewrite (key_erased _ _ Heq). }
  destruct (sameEntries_find_Some _ Herased _ _ _ _
              (sameEntries_sym _ _ Hsame)
              (find_key_placed k d l eq_refl Hfresh'))
    as (d1 & Hfind1 & Heq).
  rewrite (closeDialog_found _ _ _ _ (closeTarget_key _ _ _ _ Hfind1)).
  assert (sameEntries (delete (insertIndex d l) (dialogStack s1)) l)
    as Hrest.
  { rewrite <-(delete_placed d l) at 2. by apply sameEntries_delete. }
  split_and!.
  - eapply sameEntries_trans; [apply sameEntries_update|exact Hrest].
  - apply not_true_is_false. rewrite isDialogOpen_keys, keys_update.
    change (k ∉ key <$> delete (insertIndex d l) (dialogStack s1)).
    by rewrite (sameEntries_keys _ _ Hrest).
  - rewrite activeKey_update.
    change (key <$> last (delete (insertIndex d l) (dialogStack s1))
            = key <$> last l).
    rewrite <-!fmap_last. by rewrite (sameEntries_keys _ _ Hrest).
  - rewrite onCloseCalls_update.
    change (onCloseCalls (invoke (onClose (dialogComponentProps d1)) s1)
            = calledBack (onClose (dialogComponentProps d)) (onCloseCalls s)).
    rewrite onCloseCalls_invoke.
    apply (f_equal (λ e, onClose (dialogComponentProps e))) in Heq.
    simpl in Heq. by rewrite <-Heq.
Qed.

Lemma show_then_close_witness :
  let s' :=
    closeDialog (Some "x") (fst (showDialog stubbornOptions [] sampleStore)) in
  sameEntries (dialogStack s') (afterEviction (dialogStack sampleStore)) ∧
  isDialogOpen "x" s' = false ∧
  activeKey s' = key <$> last (afterEviction (dialogStack sampleStore)) ∧
  onCloseCalls s'
    = calledBack
        (onClose (dialogComponentProps (newDialog "x" stubbornOptions)))
        (onCloseCalls sampleStore).
Proof.
  apply (show_then_close sampleStore stubbornOptions []).
  apply (bool_decide_unpack _). vm_compute. exact I.
Defined.

(** *** Where a new dialog goes *)

(** X13. In a reachable state a dialog created by [show] is inserted
    behind every entry of higher priority and in front of every entry of
    the same or a lower priority: it heads its priority tier.  No entry
    in front of it has a priority [<=] its own and no entry behind it has
    a priority [>] its own; where neither the stack nor the options hold
    NaN, every entry in front of it has a strictly higher priority and
    every entry behind it the same or a lower one. *)
Theorem created_dialog_heads_its_tier s options draw :
  reachable s →
  resolveKey options draw ∉ keys s →
  let d := newDialog (resolveKey options draw) options in
  ∃ pre post,
    afterEviction (dialogStack s) = pre ++ post ∧
    Forall (λ x, ¬ number_le (priority x) (priority d)) pre ∧
    Forall (λ x, ¬ number_lt (priority d) (priority x)) post ∧
    (numeric (dialogStack s) → opt_priority options ≠ Some NaN →
     Forall (λ x, number_lt (priority d) (priority x)) pre ∧
     Forall (λ x, number_le (priority x) (priority d)) post) ∧
    sameEntries (dialogStack (fst (showDialog options draw s)))
      (pre ++ d :: post).
Proof.
  intros [Hdesc _ _ _ _]%wellFormed_reachable Hfresh d.
  rewrite showDialog_fresh by done. rewrite createDialog_store. fold d.
  set (l := afterEviction (dialogStack s)).
  assert (descending (priority <$> l)) as Hl.
  { eapply descending_sublist; [|exact Hdesc].
    apply fmap_sublist, afterEviction_sublist. }
  assert (Forall (λ x, ¬ number_lt (priority d) (priority x))
                 (drop (insertIndex d l) l)) as Hpost.
  { apply Forall_lookup. intros i x Hx. rewrite lookup_drop in Hx.
    destruct (l !! insertIndex d l) as [y|] eqn:Hy.
    - pose proof (insertIndex_at d l y Hy) as Hle.
      destruct i as [|i].
      + rewrite Nat.add_0_r in Hx. simplify_eq.
        destruct (priority x), (priority d); simpl in *; try done. lia.
      + assert (priority y = NaN ∨ priority x = NaN ∨
                number_le (priority x) (priority y)) as Hxy.
        { apply (descending_lookup (priority <$> l)
                   (insertIndex d l) (insertIndex d l + S i));
            [done|lia|..]; rewrite list_lookup_fmap.
          - by rewrite Hy.
          - by rewrite Hx. }
        destruct (priority x), (priority y), (priority d); simpl in *;
          try done; try tauto.
        destruct Hxy as [?|[?|?]]; [done..|lia].
    - apply lookup_ge_None in Hy. apply lookup_lt_Some in Hx. lia. }
  exists (take (insertIndex d l) l), (drop (insertIndex d l) l).
  split_and!.
  - by rewrite take_drop.
  - apply insertIndex_before.
  - exact Hpost.
  - intros Hnum Hp.
    assert (priority d ≠ NaN) as Hd.
    { subst d. simpl. destruct (opt_priority options); simpl; congruence. }
    assert (∀ x, x ∈ l → priority x ≠ NaN) as Hin.
    { intros x Hx. unfold numeric in Hnum. rewrite Forall_forall in Hnum.
      apply Hnum. eapply elem_of_sublist; [exact Hx|].
      apply afterEviction_sublist. }
    split.
    + pose proof (insertIndex_before d l) as Hbefore.
      rewrite Forall_forall in Hbefore |- *. intros x Hx.
      apply number_not_le; [|done|by apply Hbefore].
      apply Hin. eapply elem_of_sublist; [exact Hx|apply sublist_take].
    + rewrite Forall_forall in Hpost |- *. intros x Hx.
      apply number_not_lt; [done| |by apply Hpost].
      apply Hin. eapply elem_of_sublist; [exact Hx|apply sublist_drop].
  - apply sameEntries_update.
Qed.

Lemma created_dialog_heads_its_tier_witness :
  let d := newDialog "x" stubbornOptions in
  ∃ pre post,
    afterEviction (dialogStack sampleStore) = pre ++ post ∧
    Forall (λ x, ¬ number_le (priority x) (priority d)) pre ∧
    Forall (λ x, ¬ number_lt (priority d) (priority x)) post ∧
    (numeric (dialogStack sampleStore) →
     opt_priority stubbornOptions ≠ Some NaN →
     Forall (λ x, number_lt (priority d) (priority x)) pre ∧
     Forall (λ x, number_le (priority x) (priority d)) post) ∧
    sameEntries (dialogStack (fst (showDialog stubbornOptions [] sampleStore)))
      (pre ++ d :: post).
Proof.
  apply (created_dialog_heads_its_tier sampleStore stubbornOptions []
           sampleStore_reachable).
  apply (bool_decide_unpack _). vm_compute. exact I.
Defined.

(** ** Properties of the context-menu filter *)

Lemma lookupZ_nat {A} (l : list A) (z : Z) :
  (0 ≤ z)%Z → lookupZ z l = l !! Z.to_nat z.
Proof. intros Hz. unfold lookupZ. rewrite bool_decide_eq_false_2; [done|lia]. Qed.

Lemma lookupZ_nil {A} (z : Z) : lookupZ z (@nil A) = None.
Proof. unfold lookupZ. by case_bool_decide. Qed.

Lemma lookupZ_Some {A} (l : list A) (z : Z) x :
  lookupZ z l = Some x → (0 ≤ z < Z.of_nat (length l))%Z.
Proof.
  unfold lookupZ. case_bool_decide; [done|].
  intros Hx%lookup_lt_Some. lia.
Qed.

Lemma textContent_styleAt f i l :
  (∀ it, textContent (f it) = textContent it) →
  textContent <$> styleAt f i l = textContent <$> l.
Proof.
  intros Hf. destruct i as [n|]; simpl; [|done].
  apply list_eq. intros j. rewrite !list_lookup_fmap.
  destruct (decide (n = j)) as [->|Hne].
  - rewrite list_lookup_alter_eq. destruct (l !! j); simpl; [|done].
    by rewrite Hf.
  - by rewrite list_lookup_alter_ne.
Qed.

Lemma length_styleAt f i l : length (styleAt f i l) = length l.
Proof. destruct i; simpl; [apply length_alter|done]. Qed.

Lemma lookup_styleAt f i l j :
  styleAt f i l !! j
    = (if bool_decide (i = Some j) then f else id) <$> l !! j.
Proof.
  destruct i as [n|]; simpl.
  - case_bool_decide as Hn.
    + injection Hn as ->. apply list_lookup_alter_eq.
    + rewrite list_lookup_alter_ne by congruence. by destruct (l !! j).
  - by destruct (l !! j).
Qed.

(** [updateSelected] moves the highlight: if beforehand no entry but the
    selected one was highlighted, afterwards exactly the newly selected
    one is. *)
Lemma menuInv_updateSelected texts m :
  itemCount m = Z.of_nat (length (displayedItems m)) →
  displayedItems m `sublist_of` seq 0 (length (items m)) →
  textContent <$> items m = texts →
  (∀ i it, items m !! i = Some it → highlighted it → selectedItem m = Some i) →
  menuInv texts (updateSelected m).
Proof.
  intros Hcount Hshown Htexts Hhl.
  split; unfold updateSelected; simpl.
  - done.
  - done.
  - by rewrite !length_styleAt.
  - by rewrite !textContent_styleAt.
  - intros i it. rewrite !lookup_styleAt.
    destruct (items m !! i) as [it0|] eqn:Hit0; [|done]. simpl.
    intros [= <-].
    case_bool_decide as Hsel.
    + rewrite Hsel. split; [done|]. intros _. by split.
    + split; [|done]. intros Hhigh. exfalso.
      case_bool_decide as Hold.
      * by destruct Hhigh.
      * apply Hold. by apply (Hhl i it0).
Qed.

Lemma menuInv_onKeydown texts key m :
  menuInv texts m → menuInv texts (fst (onKeydown key m)).
Proof.
  intros [Hcount Hsel Hshown Htexts Hhl]. unfold onKeydown.
  assert (∀ z, menuInv texts (updateSelected (setSelectedIndex z m)))
    as Hmove.
  { intros z. apply menuInv_updateSelected; simpl; [done..|].
    intros i it Hit Hhigh. by apply (Hhl i it). }
  repeat case_bool_decide; simpl; try apply Hmove; by split.
Qed.

Lemma shown_ids {A} (P : nat * A → Prop) `{!∀ x, Decision (P x)}
    (l : list A) :
  fst <$> filter P (imap (λ i x, (i, x)) l) `sublist_of` seq 0 (length l).
Proof.
  assert (fst <$> imap (λ i x, (i, x)) l = seq 0 (length l)) as <-.
  { apply list_eq. intros i. rewrite list_lookup_fmap, list_lookup_imap.
    destruct (l !! i) as [x|] eqn:Hx; simpl.
    - symmetry. apply lookup_seq. split; [done|]. by eapply lookup_lt_Some.
    - symmetry. apply lookup_seq_ge. by apply lookup_ge_None. }
  apply fmap_sublist, sublist_filter.
Qed.

Lemma menuInv_onInput lower texts value m :
  menuInv texts m → menuInv texts (onInput lower value m).
Proof.
  intros [Hcount Hsel Hshown Htexts Hhl]. unfold onInput.
  apply menuInv_updateSelected; simpl.
  - done.
  - rewrite length_fmap. apply shown_ids.
  - rewrite <-Htexts, <-list_fmap_compose. by apply list_fmap_ext.
  - intros i it. rewrite list_lookup_fmap.
    destruct (items m !! i) as [it0|] eqn:Hit0; [|done]. simpl.
    intros [= <-] Hhigh. by apply (Hhl i it0).
Qed.

Lemma menuInv_openMenu entries values widgets :
  Forall (λ it, ¬ highlighted it) entries →
  menuInv (textContent <$> entries) (openMenu entries values widgets).
Proof.
  intros Hplain. unfold openMenu.
  apply menuInv_updateSelected; simpl; [done..|].
  intros i it Hit Hhigh. rewrite Forall_forall in Hplain.
  destruct (Hplain it); [by eapply list_elem_of_lookup_2|done].
Qed.

Lemma menuInv_menuRun lower texts evs m :
  menuInv texts m → menuInv texts (menuRun lower evs m).
Proof.
  revert m. induction evs as [|ev evs IH]; intros m Hm; [done|].
  apply IH. destruct ev; [by apply menuInv_onKeydown|by apply menuInv_onInput].
Qed.

(** X15. However the user types and presses keys after a menu has opened
    with no entry highlighted, the closure stays consistent: [itemCount]
    is the number of displayed entries, the displayed entries are entries
    of the menu in their original order, the texts of the entries are
    untouched, [selectedItem] is the displayed entry at [selectedIndex]
    (none when the index is out of range), and the highlight sits on the
    selected entry and on no other. *)
Theorem menu_selection_consistent lower entries values widgets evs :
  Forall (λ it, ¬ highlighted it) entries →
  let m := menuRun lower evs (openMenu entries values widgets) in
  itemCount m = Z.of_nat (length (displayedItems m)) ∧
  selectedItem m = lookupZ (selectedIndex m) (displayedItems m) ∧
  displayedItems m `sublist_of` seq 0 (length entries) ∧
  textContent <$> items m = textContent <$> entries ∧
  ∀ i it, items m !! i = Some it →
          highlighted it ↔ selectedItem m = Some i.
Proof.
  intros Hplain m.
  destruct (menuInv_menuRun lower _ evs _
              (menuInv_openMenu entries values widgets Hplain))
    as [Hcount Hsel Hshown Htexts Hhl].
  fold m in Hcount, Hsel, Hshown, Htexts, Hhl.
  split_and!; [done|done| |done|done].
  apply (f_equal length) in Htexts. rewrite !length_fmap in Htexts.
  by rewrite <-Htexts.
Qed.

Lemma menu_selection_consistent_witness :
  let m := menuRun asciiLower fruitEvents
             (openMenu (plainItem <$> fruit) fruit fruitWidgets) in
  itemCount m = Z.of_nat (length (displayedItems m)) ∧
  selectedItem m = lookupZ (selectedIndex m) (displayedItems m) ∧
  displayedItems m `sublist_of` seq 0 (length (plainItem <$> fruit)) ∧
  textContent <$> items m = textContent <$> (plainItem <$> fruit) ∧
  ∀ i it, items m !! i = Some it →
          highlighted it ↔ selectedItem m = Some i.
Proof.
  apply (menu_selection_consistent asciiLower (plainItem <$> fruit) fruit
           fruitWidgets fruitEvents).
  repeat constructor; by intros [Hbg _].
Defined.

(** *** Arrow keys *)

Lemma onKeydown_ArrowUp m :
  onKeydown "ArrowUp" m
    = (moved (if bool_decide (selectedIndex m = 0)%Z
              then (itemCount m - 1)%Z else (selectedIndex m - 1)%Z) m, true).
Proof. done. Qed.

Lemma onKeydown_ArrowDown m :
  onKeydown "ArrowDown" m
    = (moved (if bool_decide (selectedIndex m = itemCount m - 1)%Z
              then 0%Z else (selectedIndex m + 1)%Z) m, true).
Proof. done. Qed.

Lemma onKeydown_ArrowLeft m : onKeydown "ArrowLeft" m = (moved 0%Z m, true).
Proof. done. Qed.

Lemma onKeydown_ArrowRight m :
  onKeydown "ArrowRight" m = (moved (itemCount m - 1)%Z m, true).
Proof. done. Qed.

Lemma moved_in_range index m :
  itemCount m = Z.of_nat (length (displayedItems m)) →
  (0 ≤ index < itemCount m)%Z →
  is_Some (selectedItem (moved index m)) ∧
  selectedItem (moved index m) = displayedItems m !! Z.to_nat index.
Proof.
  intros Hcount Hrange. unfold moved, updateSelected. simpl.
  rewrite lookupZ_nat by lia. split; [|done].
  apply lookup_lt_is_Some. lia.
Qed.

(** X16. While some entry is displayed and the selection is on one of
    them, the arrow keys keep it there: ArrowDown moves to the next
    displayed entry and from the last to the first, ArrowUp to the
    previous one and from the first to the last, ArrowLeft to the first,
    ArrowRight to the last; the selected entry is the displayed entry at
    the new index; ArrowUp undoes ArrowDown and ArrowDown undoes ArrowUp;
    the page's default action for the key is suppressed. *)
Theorem arrow_keys_cycle m :
  itemCount m = Z.of_nat (length (displayedItems m)) →
  (0 ≤ selectedIndex m < itemCount m)%Z →
  let down := fst (onKeydown "ArrowDown" m) in
  let up := fst (onKeydown "ArrowUp" m) in
  selectedIndex down = ((selectedIndex m + 1) `mod` itemCount m)%Z ∧
  selectedIndex up = ((selectedIndex m - 1) `mod` itemCount m)%Z ∧
  selectedIndex (fst (onKeydown "ArrowLeft" m)) = 0%Z ∧
  selectedIndex (fst (onKeydown "ArrowRight" m)) = (itemCount m - 1)%Z ∧
  selectedIndex (fst (onKeydown "ArrowUp" down)) = selectedIndex m ∧
  selectedIndex (fst (onKeydown "ArrowDown" up)) = selectedIndex m ∧
  ∀ key,
    key ∈ ["ArrowUp"; "ArrowDown"; "ArrowLeft"; "ArrowRight"] →
    let m' := fst (onKeydown key m) in
    snd (onKeydown key m) = true ∧
    displayedItems m' = displayedItems m ∧
    itemCount m' = itemCount m ∧
    (0 ≤ selectedIndex m' < itemCount m)%Z ∧
    is_Some (selectedItem m') ∧
    selectedItem m' = displayedItems m !! Z.to_nat (selectedIndex m').
Proof.
  intros Hcount Hrange down up. subst down up.
  rewrite !onKeydown_ArrowDown, !onKeydown_ArrowUp, onKeydown_ArrowLeft,
    onKeydown_ArrowRight.
  cbn [fst snd moved updateSelected setSelectedIndex selectedIndex itemCount].
  split_and!.
  - case_bool_decide as Hlast.
    + rewrite Hlast. replace (itemCount m - 1 + 1)%Z with (itemCount m) by lia.
      by rewrite Z_mod_same_full.
    + rewrite Z.mod_small; [done|lia].
  - case_bool_decide as Hfirst.
    + rewrite Hfirst. apply (Z.mod_unique _ _ (-1)%Z); [lia|lia].
    + rewrite Z.mod_small; [done|lia].
  - done.
  - done.
  - repeat case_bool_decide; lia.
  - repeat case_bool_decide; lia.
  - intros key Hkey.
    assert (∀ z, (0 ≤ z < itemCount m)%Z →
                 snd (moved z m, true) = true ∧
                 displayedItems (moved z m) = displayedItems m ∧
                 itemCount (moved z m) = itemCount m ∧
                 (0 ≤ selectedIndex (moved z m) < itemCount m)%Z ∧
                 is_Some (selectedItem (moved z m)) ∧
                 selectedItem (moved z m)
                   = displayedItems m !! Z.to_nat (selectedIndex (moved z m)))
      as Hmoved.
    { intros z Hz. destruct (moved_in_range z m Hcount Hz) as [Hsome Hsel].
      split_and!; [done|done|done|simpl; lia|simpl; lia|exact Hsome|exact Hsel]. }
    repeat (apply elem_of_cons in Hkey as [->|Hkey]);
      [..|by apply elem_of_nil in Hkey].
    + rewrite onKeydown_ArrowUp. apply Hmoved. case_bool_decide; lia.
    + rewrite onKeydown_ArrowDown. apply Hmoved. case_bool_decide; lia.
    + rewrite onKeydown_ArrowLeft. apply Hmoved. lia.
    + rewrite onKeydown_ArrowRight. apply Hmoved. lia.
Qed.

Lemma arrow_keys_cycle_witness :
  let m := fruitMenu in
  let down := fst (onKeydown "ArrowDown" m) in
  let up := fst (onKeydown "ArrowUp" m) in
  selectedIndex down = ((selectedIndex m + 1) `mod` itemCount m)%Z ∧
  selectedIndex up = ((selectedIndex m - 1) `mod` itemCount m)%Z ∧
  selectedIndex (fst (onKeydown "ArrowLeft" m)) = 0%Z ∧
  selectedIndex (fst (onKeydown "ArrowRight" m)) = (itemCount m - 1)%Z ∧
  selectedIndex (fst (onKeydown "ArrowUp" down)) = selectedIndex m ∧
  selectedIndex (fst (onKeydown "ArrowDown" up)) = selectedIndex m ∧
  ∀ key,
    key ∈ ["ArrowUp"; "ArrowDown"; "ArrowLeft"; "ArrowRight"] →
    let m' := fst (onKeydown key m) in
    snd (onKeydown key m) = true ∧
    displayedItems m' = displayedItems m ∧
    itemCount m' = itemCount m ∧
    (0 ≤ selectedIndex m' < itemCount m)%Z ∧
    is_Some (selectedItem m') ∧
    selectedItem m' = displayedItems m !! Z.to_nat (selectedIndex m').
Proof.
  apply (arrow_keys_cycle fruitMenu).
  - reflexivity.
  - split; [apply Z.leb_le|apply Z.ltb_lt]; reflexivity.
Defined.

(** *** Keys while nothing is displayed *)

Lemma onKeydown_nothing_shown key m :
  displayedItems m = [] → selectedItem m = None →
  displayedItems (fst (onKeydown key m)) = [] ∧
  selectedItem (fst (onKeydown key m)) = None ∧
  clicks (fst (onKeydown key m)) = clicks m.
Proof.
  intros Hshown Hsel. unfold onKeydown.
  repeat case_bool_decide; simpl; rewrite ?Hshown, ?Hsel, ?lookupZ_nil; done.
Qed.

Lemma menuRun_nothing_shown lower keys m :
  displayedItems m = [] → selectedItem m = None →
  displayedItems (menuRun lower (Keydown <$> keys) m) = [] ∧
  selectedItem (menuRun lower (Keydown <$> keys) m) = None ∧
  clicks (menuRun lower (Keydown <$> keys) m) = clicks m.
Proof.
  revert m. induction keys as [|key keys IH]; intros m Hshown Hsel; [done|].
  destruct (onKeydown_nothing_shown key m Hshown Hsel)
    as (Hshown' & Hsel' & Hclicks).
  destruct (IH _ Hshown' Hsel') as (? & ? & Hclicks').
  rewrite fmap_cons.
  change (menuRun lower (Keydown key :: (Keydown <$> keys)) m)
    with (menuRun lower (Keydown <$> keys) (fst (onKeydown key m))).
  split_and!; [done|done|congruence].
Qed.

(** X17. While no entry is displayed and none is selected, as after a
    filter text that matches nothing, no sequence of key presses selects
    or clicks anything: Enter does nothing.  The index is not kept in a
    range then: from 0, ArrowUp takes it to [-1] and ArrowDown to [1]. *)
Theorem keys_with_nothing_shown lower keys m :
  displayedItems m = [] → selectedItem m = None →
  let m' := menuRun lower (Keydown <$> keys) m in
  displayedItems m' = [] ∧ selectedItem m' = None ∧ clicks m' = clicks m ∧
  (itemCount m = 0%Z → selectedIndex m = 0%Z →
   selectedIndex (fst (onKeydown "ArrowUp" m)) = (-1)%Z ∧
   selectedIndex (fst (onKeydown "ArrowDown" m)) = 1%Z).
Proof.
  intros Hshown Hsel m'. subst m'.
  destruct (menuRun_nothing_shown lower keys m Hshown Hsel) as (? & ? & ?).
  split_and!; [done..|].
  intros Hcount Hindex.
  rewrite onKeydown_ArrowUp, onKeydown_ArrowDown. simpl.
  rewrite Hcount, Hindex. done.
Qed.

Lemma keys_with_nothing_shown_witness :
  let m := onInput asciiLower "zz" fruitMenu in
  let m' := menuRun asciiLower
              (Keydown <$> ["ArrowUp"; "ArrowDown"; "Enter"]) m in
  displayedItems m' = [] ∧ selectedItem m' = None ∧ clicks m' = clicks m ∧
  (itemCount m = 0%Z → selectedIndex m = 0%Z →
   selectedIndex (fst (onKeydown "ArrowUp" m)) = (-1)%Z ∧
   selectedIndex (fst (onKeydown "ArrowDown" m)) = 1%Z).
Proof.
  apply (keys_with_nothing_shown asciiLower
           ["ArrowUp"; "ArrowDown"; "Enter"]
           (onInput asciiLower "zz" fruitMenu));
    reflexivity.
Defined.

(** *** Filtering *)

Lemma displayedItems_onInput lower value m :
  displayedItems (onInput lower value m)
    = shownFor lower (lower value) (items m).
Proof. done. Qed.

Lemma elem_of_shownFor lower term l i :
  i ∈ shownFor lower term l ↔
  ∃ it, l !! i = Some it ∧ isVisible lower term it = true.
Proof.
  unfold shownFor. rewrite list_elem_of_fmap. split.
  - intros ([j it] & -> & [Hvis Hin]%list_elem_of_filter).
    apply elem_of_lookup_imap in Hin as (j' & it' & [= -> ->] & Hit).
    exists it'. split; [done|]. simpl in Hvis. by apply Is_true_true.
  - intros (it & Hit & Hvis). exists (i, it). split; [done|].
    apply list_elem_of_filter. split; [simpl; by apply Is_true_true|].
    apply elem_of_lookup_imap. eauto.
Qed.

Lemma filter_all {A} (P : A → Prop) `{!∀ x, Decision (P x)} (l : list A) :
  Forall P l → filter P l = l.
Proof.
  induction 1 as [|x l Hx Hl IH]; [done|].
  rewrite filter_cons_True by done. by rewrite IH.
Qed.

Lemma display_onInput lower value m i :
  css_display <$> items (onInput lower value m) !! i
    = (λ it, if isVisible lower (lower value) it then "block" else "none")
      <$> items m !! i.
Proof.
  unfold onInput, updateSelected. cbn [items selectedItem].
  rewrite !lookup_styleAt, list_lookup_fmap.
  destruct (items m !! i) as [it|]; [|done]. simpl.
  by repeat case_bool_decide.
Qed.

(** X18. After an [input] event the displayed entries are exactly the
    entries whose lower-cased text contains the lower-cased filter text,
    in their original order; such an entry gets [display: block] and
    every other entry [display: none].  An empty filter text displays
    every entry, and an entry without text is displayed for the empty
    filter text only. *)
Theorem filter_shows_matching lower value m :
  let m' := onInput lower value m in
  let term := lower value in
  (∀ i it,
     items m !! i = Some it →
     (i ∈ displayedItems m' ↔ isVisible lower term it = true) ∧
     css_display <$> items m' !! i
       = Some (if isVisible lower term it then "block" else "none") ∧
     (textContent it = None → term ≠ "" → i ∉ displayedItems m') ∧
     (∀ text, textContent it = Some text → term ≠ "" →
              i ∈ displayedItems m' ↔ includes (lower text) term = true)) ∧
  displayedItems m' `sublist_of` seq 0 (length (items m)) ∧
  itemCount m' = Z.of_nat (length (displayedItems m')) ∧
  (term = "" → displayedItems m' = seq 0 (length (items m))).
Proof.
  intros m' term. subst m'. rewrite displayedItems_onInput. fold term.
  split_and!.
  - intros i it Hit.
    assert (i ∈ shownFor lower term (items m)
            ↔ isVisible lower term it = true) as Hshown.
    { rewrite elem_of_shownFor. split; [|by eauto].
      intros (it' & Hit' & Hvis). congruence. }
    split_and!.
    + done.
    + by rewrite display_onInput, Hit.
    + intros Htext Hterm. rewrite Hshown. unfold isVisible.
      rewrite Htext, bool_decide_eq_false_2 by done. done.
    + intros text Htext Hterm. rewrite Hshown. unfold isVisible.
      rewrite Htext, bool_decide_eq_false_2 by done. done.
  - apply shown_ids.
  - done.
  - intros Hterm. unfold shownFor. rewrite filter_all.
    + apply list_eq. intros i. rewrite list_lookup_fmap, list_lookup_imap.
      destruct (items m !! i) as [x|] eqn:Hx; simpl.
      * symmetry. apply lookup_seq. split; [done|]. by eapply lookup_lt_Some.
      * symmetry. apply lookup_seq_ge. by apply lookup_ge_None.
    + apply Forall_forall. intros [i it] _. simpl. unfold isVisible.
      by rewrite bool_decide_eq_true_2.
Qed.

Lemma filter_shows_matching_witness :
  let m' := onInput asciiLower "AP" fruitMenu in
  (0 ∈ displayedItems m' ↔ isVisible asciiLower "ap" (plainItem "Apple") = true) ∧
  css_display <$> items m' !! 0 = Some "block" ∧
  css_display <$> items m' !! 1 = Some "none" ∧
  displayedItems m' = [0; 3] ∧
  displayedItems (onInput asciiLower "" m') = seq 0 (length (items m')).
Proof.
  destruct (filter_shows_matching asciiLower "AP" fruitMenu)
    as (Hentry & _ & _ & _).
  destruct (Hentry 0 (plainItem "Apple") eq_refl) as (Hin & Hshow & _ & _).
  destruct (Hentry 1 (plainItem "banana") eq_refl) as (_ & Hhide & _ & _).
  destruct (filter_shows_matching asciiLower "" (onInput asciiLower "AP" fruitMenu))
    as (_ & _ & _ & Hall).
  split_and!; [exact Hin|exact Hshow|exact Hhide|reflexivity|].
  by apply Hall.
Defined.

Lemma findIndexZ_elem_of (l : list nat) i :
  i ∈ l →
  (0 ≤ findIndexZ (λ d, d = i) l)%Z ∧
  l !! Z.to_nat (findIndexZ (λ d, d = i) l) = Some i.
Proof.
  intros Hin. unfold findIndexZ.
  destruct (list_find (λ d, d = i) l) as [[j x]|] eqn:Hfind.
  - apply list_find_Some in Hfind as (Hx & -> & _).
    split; [lia|]. by rewrite Nat2Z.id.
  - apply list_find_None in Hfind. rewrite Forall_forall in Hfind.
    by destruct (Hfind i Hin).
Qed.

(** X19. Filtering keeps the selection where it can: if the selected
    entry still matches the filter text it stays the selected entry, and
    [selectedIndex] becomes its place among the displayed entries;
    otherwise, and when nothing was selected, the selection goes to the
    first displayed entry, or to none if nothing is displayed. *)
Theorem selection_survives_filter lower value m :
  let m' := onInput lower value m in
  (∀ i it,
     selectedItem m = Some i → items m !! i = Some it →
     if isVisible lower (lower value) it
     then selectedItem m' = Some i ∧
          displayedItems m' !! Z.to_nat (selectedIndex m') = Some i
     else selectedIndex m' = 0%Z ∧
          selectedItem m' = head (displayedItems m')) ∧
  (selectedItem m = None →
   selectedIndex m' = 0%Z ∧ selectedItem m' = head (displayedItems m')).
Proof.
  intros m'. subst m'. split.
  - intros i it Hsel Hit.
    pose proof (elem_of_shownFor lower (lower value) (items m) i) as Hshown.
    unfold onInput, updateSelected.
    cbn [selectedItem selectedIndex displayedItems]. rewrite Hsel.
    fold (shownFor lower (lower value) (items m)).
    destruct (isVisible lower (lower value) it) eqn:Hvis.
    + assert (i ∈ shownFor lower (lower value) (items m)) as Hin
        by (apply Hshown; eauto).
      rewrite bool_decide_eq_true_2 by done.
      destruct (findIndexZ_elem_of _ _ Hin) as [Hpos Hat].
      by rewrite lookupZ_nat.
    + rewrite bool_decide_eq_false_2.
      * split; [done|]. by rewrite lookupZ_nat, head_lookup.
      * intros (it' & Hit' & Hvis')%Hshown. congruence.
  - intros Hsel. unfold onInput, updateSelected.
    cbn [selectedItem selectedIndex displayedItems]. rewrite Hsel.
    split; [done|]. by rewrite lookupZ_nat, head_lookup.
Qed.

Lemma selection_survives_filter_witness :
  let m' := onInput asciiLower "e" fruitMenu in
  selectedItem m' = Some 2 ∧
  displayedItems m' !! Z.to_nat (selectedIndex m') = Some 2.
Proof.
  apply (proj1 (selection_survives_filter asciiLower "e" fruitMenu)
           2 (setHighlight ("#ccc", true) ("#000", true) (plainItem "Cherry")));
    reflexivity.
Defined.

(** *** Substrings *)

Lemma append_assoc (a b c : string) : (a +:+ b) +:+ c = a +:+ (b +:+ c).
Proof.
  induction a as [|x a IH]; [done|].
  change (String x ((a +:+ b) +:+ c) = String x (a +:+ b +:+ c)).
  by f_equal.
Qed.

Lemma append_cons c (a r : string) : String c a +:+ r = String c (a +:+ r).
Proof. done. Qed.

Lemma append_empty (r : string) : "" +:+ r = r.
Proof. done. Qed.

Lemma prefix_spec a s : String.prefix a s = true ↔ ∃ r, s = a +:+ r.
Proof.
  revert a. induction s as [|b s IH]; intros [|c a]; simpl.
  - split; [by exists ""|done].
  - split; [done|]. intros [r Hr]. by rewrite append_cons in Hr.
  - split; [by eexists|done].
  - destruct (ascii_dec c b) as [->|Hne].
    + rewrite IH. split; intros [r Hr]; exists r;
        rewrite append_cons in *; congruence.
    + split; [done|]. intros [r Hr]. rewrite append_cons in Hr. congruence.
Qed.

Lemma includes_spec s t :
  includes s t = true ↔ ∃ pre post, s = pre +:+ t +:+ post.
Proof.
  induction s as [|c s IH]; cbn [includes];
    rewrite orb_true_iff, prefix_spec.
  - split.
    + intros [[r Hr]|?]; [|done]. by exists "", r.
    + intros (pre & post & Hs). left.
      destruct pre; [by exists post|by rewrite append_cons in Hs].
  - rewrite IH. split.
    + intros [[r Hr]|(pre & post & Hs)].
      * by exists "", r.
      * exists (String c pre), post. rewrite append_cons. by rewrite Hs.
    + intros ([|c' pre] & post & Hs).
      * left. by exists post.
      * right. exists pre, post. rewrite append_cons in Hs. congruence.
Qed.

Lemma includes_trans s t u :
  includes s t = true → includes t u = true → includes s u = true.
Proof.
  rewrite !includes_spec.
  intros (p1 & q1 & ->) (p2 & q2 & ->).
  exists (p1 +:+ p2), (q2 +:+ q1). by rewrite !append_assoc.
Qed.

Lemma includes_empty s : includes "" s = true → s = "".
Proof.
  intros ([|] & post & Hs)%includes_spec;
    [|by rewrite append_cons in Hs].
  rewrite append_empty in Hs.
  destruct s; [done|]. by rewrite append_cons in Hs.
Qed.

Lemma texts_onInput lower value m :
  textContent <$> items (onInput lower value m) = textContent <$> items m.
Proof.
  unfold onInput, updateSelected. cbn [items].
  rewrite !textContent_styleAt by done.
  rewrite <-list_fmap_compose. by apply list_fmap_ext.
Qed.

Lemma isVisible_text lower term it it' :
  textContent it = textContent it' →
  isVisible lower term it = isVisible lower term it'.
Proof. unfold isVisible. by intros ->. Qed.

Lemma isVisible_longer lower term term' it :
  includes term' term = true →
  isVisible lower term' it = true → isVisible lower term it = true.
Proof.
  intros Hterm. unfold isVisible. rewrite !orb_true_iff.
  destruct (decide (term = "")) as [->|Hne]; [by left|].
  intros [Hempty%bool_decide_eq_true|Hvis].
  - subst term'. by apply includes_empty in Hterm.
  - right. destruct (textContent it) as [text|]; [|done].
    by eapply includes_trans.
Qed.

(** X20. Typing on never brings an entry back: when the lower-cased new
    filter text contains the lower-cased old one, as it does when the
    user appends characters, every entry displayed for the new text was
    displayed for the old text. *)
Theorem longer_filter_shows_less lower value value' m :
  includes (lower value') (lower value) = true →
  ∀ i,
    i ∈ displayedItems (onInput lower value' (onInput lower value m)) →
    i ∈ displayedItems (onInput lower value m).
Proof.
  intros Hterm i. rewrite !displayedItems_onInput, !elem_of_shownFor.
  intros (it' & Hit' & Hvis).
  assert (textContent <$> items (onInput lower value m) !! i
          = textContent <$> items m !! i) as Htext.
  { rewrite <-!list_lookup_fmap. by rewrite texts_onInput. }
  rewrite Hit' in Htext.
  destruct (items m !! i) as [it|] eqn:Hit; [|done].
  injection Htext as Htext.
  exists it. split; [done|].
  rewrite (isVisible_text _ _ it it') by done.
  by eapply isVisible_longer.
Qed.

Lemma longer_filter_shows_less_witness :
  includes (asciiLower "Ap") (asciiLower "a") = true ∧
  ∀ i,
    i ∈ displayedItems (onInput asciiLower "Ap" (onInput asciiLower "a" fruitMenu)) →
    i ∈ displayedItems (onInput asciiLower "a" fruitMenu).
Proof.
  split; [reflexivity|].
  apply (longer_filter_shows_less asciiLower "a" "Ap" fruitMenu).
  reflexivity.
Defined.

(** *** The entry selected when the menu opens *)

Lemma everyMatches_values (values vs : list string) :
  length vs = length values →
  forallb id (imap (λ i v, bool_decide (values !! i = Some v)) vs) = true →
  vs = values.
Proof.
  revert values. induction vs as [|v vs IH]; intros [|x values] Hlen Hall;
    simplify_eq/=; [done|].
  apply andb_prop in Hall as [Hhead Hall].
  apply bool_decide_eq_true in Hhead. simplify_eq.
  f_equal. by apply IH.
Qed.

Lemma clickedComboValue_widget values widgets v :
  clickedComboValue values widgets = Some v →
  ∃ ws w,
    widgets = Some ws ∧ w ∈ ws ∧ w_type w = "combo" ∧
    w_values w = Some values ∧ w_value w = Some v.
Proof.
  unfold clickedComboValue. destruct widgets as [ws|]; [|done]. simpl.
  destruct (list_find _ _) as [[i w]|] eqn:Hfind; [|done]. simpl.
  intros Hv. apply list_find_Some in Hfind as (Hw & Hall & _).
  apply list_elem_of_lookup_2, list_elem_of_filter in Hw
    as [[Htype Hlen] Hin].
  exists ws, w. split_and!; [done..| |done].
  unfold everyMatches in Hall.
  destruct (w_values w) as [vs|]; [|done]. simpl in Hlen.
  injection Hlen as Hlen. f_equal.
  apply everyMatches_values; [done|]. by apply Is_true_true.
Qed.

Lemma findIndexZ_range {A} (P : A → Prop) `{!∀ x, Decision (P x)}
    (l : list A) :
  (-1 ≤ findIndexZ P l < Z.of_nat (length l))%Z.
Proof.
  unfold findIndexZ. destruct (list_find P l) as [[i x]|] eqn:Hfind.
  - apply list_find_lt in Hfind. lia.
  - lia.
Qed.

Lemma everyMatches_same (values : list string) :
  forallb id (imap (λ i v, bool_decide (values !! i = Some v)) values) = true.
Proof.
  apply forallb_forall. intros b Hb%list_elem_of_In.
  apply elem_of_lookup_imap in Hb as (i & v & -> & Hv).
  simpl. by apply bool_decide_eq_true_2.
Qed.

(** What [filter] keeps and [find] then accepts is a combo widget for the
    values of the menu. *)
Lemma comboFor_spec values w :
  comboFor values w ↔
  (w_type w = "combo" ∧ length <$> w_values w = Some (length values)) ∧
  everyMatches values w.
Proof.
  unfold comboFor, everyMatches. split.
  - intros [Htype Hvalues]. rewrite Hvalues. simpl.
    split_and!; [done..|]. apply Is_true_true, everyMatches_same.
  - intros [[Htype Hlen] Hall].
    destruct (w_values w) as [vs|]; [|done]. simpl in Hlen.
    injection Hlen as Hlen. split; [done|]. f_equal.
    apply everyMatches_values; [done|]. by apply Is_true_true.
Qed.

Lemma find_in_filter values ws i w :
  firstComboFor values ws i w →
  snd <$> list_find (λ w, everyMatches values w)
            (filter (λ w, w_type w = "combo" ∧
                          length <$> w_values w = Some (length values)) ws)
  = Some w.
Proof.
  revert i. induction ws as [|x ws IH]; intros i (Hw & Hcombo & Hfirst).
  - by rewrite lookup_nil in Hw.
  - destruct i as [|i]; simplify_eq/=.
    + apply comboFor_spec in Hcombo as [Hkept Hall].
      rewrite filter_cons_True by done. simpl.
      by rewrite decide_True.
    + assert (¬ comboFor values x) as Hx by (apply (Hfirst 0); [lia|done]).
      assert (firstComboFor values ws i w) as Hrest.
      { split_and!; [done..|]. intros j w' Hj Hw'.
        apply (Hfirst (S j)); [lia|done]. }
      rewrite filter_cons. destruct (decide _) as [Hkept|Hdropped].
      * simpl. rewrite decide_False.
        -- rewrite <-(IH i Hrest).
           by destruct (list_find _ (filter _ ws)) as [[j y]|].
        -- intros Hall. apply Hx, comboFor_spec. done.
      * by apply (IH i).
Qed.

Lemma clickedComboValue_first values ws i w :
  firstComboFor values ws i w →
  clickedComboValue values (Some ws) = w_value w.
Proof.
  intros Hfirst%find_in_filter. unfold clickedComboValue. simpl.
  destruct (list_find _ _) as [[j y]|]; by simplify_eq/=.
Qed.

Lemma clickedComboValue_none values ws :
  (∀ w, w ∈ ws → ¬ comboFor values w) →
  clickedComboValue values (Some ws) = None.
Proof.
  intros Hnone. unfold clickedComboValue. simpl.
  destruct (list_find _ _) as [[j y]|] eqn:Hfind; [|done].
  apply list_find_Some in Hfind as (Hy & Hall & _).
  apply list_elem_of_lookup_2, list_elem_of_filter in Hy as [Hkept Hin].
  destruct (Hnone y Hin). by apply comboFor_spec.
Qed.

Lemma firstComboFor_exists values ws w :
  w ∈ ws → comboFor values w → ∃ i w1, firstComboFor values ws i w1.
Proof.
  intros Hin Hcombo.
  destruct (list_find (comboFor values) ws) as [[i w1]|] eqn:Hfind.
  - apply list_find_Some in Hfind as (Hw1 & Hc1 & Hfirst).
    exists i, w1. split_and!; [done..|].
    intros j w' Hj Hw'. by apply (Hfirst j).
  - apply list_find_None in Hfind. rewrite Forall_forall in Hfind.
    by destruct (Hfind w Hin).
Qed.

Lemma initialIndex_of values widgets v :
  clickedComboValue values widgets = Some v →
  (v ≠ "" → v ∈ values →
   values !! Z.to_nat (initialIndex values widgets) = Some v ∧
   ∀ j, j < Z.to_nat (initialIndex values widgets) → values !! j ≠ Some v) ∧
  (v = "" ∨ v ∉ values → initialIndex values widgets = 0%Z).
Proof.
  intros Hv. unfold initialIndex. rewrite Hv. split.
  - intros Hnamed Hin. rewrite (bool_decide_eq_false_2 (v = "")) by done.
    unfold findIndexZ.
    destruct (list_find (λ x, x = v) values) as [[i x]|] eqn:Hfind.
    + apply list_find_Some in Hfind as (Hx & -> & Hfirst).
      rewrite bool_decide_eq_false_2 by lia. rewrite Nat2Z.id.
      split; [done|]. intros j Hj Hjv. by apply (Hfirst j v).
    + apply list_find_None in Hfind. rewrite Forall_forall in Hfind.
      by destruct (Hfind v Hin).
  - intros Hcase. destruct (decide (v = "")) as [->|Hnamed]; [done|].
    rewrite (bool_decide_eq_false_2 (v = "")) by done.
    destruct Hcase as [?|Hout]; [done|]. unfold findIndexZ.
    destruct (list_find (λ x, x = v) values) as [[i x]|] eqn:Hfind; [|done].
    apply list_find_Some in Hfind as (Hx & -> & _).
    destruct Hout. by eapply list_elem_of_lookup_2.
Qed.

(** X21. The index selected when the menu opens is never negative and,
    for a non-empty list of values, is the index of one of them.  What
    decides it is the first widget of the node under the pointer that is
    a combo widget whose options are the values of the menu, whatever
    widgets follow it: if that widget's value is a non-empty string that
    occurs among the values, the index is that of its first occurrence;
    if its value is missing, empty or does not occur, the index is 0.
    If the node has no such widget, or there is no node, the index is 0.
    Conversely a value is only ever taken from the first such widget. *)
Theorem initial_selection values widgets :
  (0 ≤ initialIndex values widgets)%Z ∧
  (values ≠ [] → (initialIndex values widgets < Z.of_nat (length values))%Z) ∧
  (∀ ws i w,
     widgets = Some ws → firstComboFor values ws i w →
     clickedComboValue values widgets = w_value w ∧
     (∀ v, w_value w = Some v → v ≠ "" → v ∈ values →
        values !! Z.to_nat (initialIndex values widgets) = Some v ∧
        ∀ j, j < Z.to_nat (initialIndex values widgets) →
             values !! j ≠ Some v) ∧
     (w_value w = None ∨ w_value w = Some "" ∨
      (∃ v, w_value w = Some v ∧ v ∉ values) →
      initialIndex values widgets = 0%Z)) ∧
  ((∀ ws w, widgets = Some ws → w ∈ ws → ¬ comboFor values w) →
   clickedComboValue values widgets = None ∧
   initialIndex values widgets = 0%Z) ∧
  (∀ v,
     clickedComboValue values widgets = Some v →
     (∃ ws i w,
        widgets = Some ws ∧ firstComboFor values ws i w ∧
        w_value w = Some v) ∧
     (v ≠ "" → v ∈ values →
      values !! Z.to_nat (initialIndex values widgets) = Some v ∧
      ∀ j, j < Z.to_nat (initialIndex values widgets) →
           values !! j ≠ Some v) ∧
     (v = "" ∨ v ∉ values → initialIndex values widgets = 0%Z)) ∧
  (clickedComboValue values widgets = None →
   initialIndex values widgets = 0%Z).
Proof.
  split_and!.
  - unfold initialIndex. case_bool_decide; lia.
  - intros Hne. unfold initialIndex.
    assert (0 < Z.of_nat (length values))%Z by (destruct values; [done|simpl; lia]).
    destruct (clickedComboValue values widgets) as [v|]; [|by case_bool_decide].
    pose proof (findIndexZ_range (λ x, x = v) values).
    repeat case_bool_decide; lia.
  - intros ws i w -> Hfirst.
    pose proof (clickedComboValue_first _ _ _ _ Hfirst) as Hclicked.
    split_and!; [done|..].
    + intros v Hv. rewrite Hv in Hclicked.
      apply (initialIndex_of _ _ _ Hclicked).
    + intros [Hnone|[Hempty|(v & Hv & Hout)]].
      * unfold initialIndex. by rewrite Hclicked, Hnone.
      * rewrite Hempty in Hclicked.
        apply (initialIndex_of _ _ _ Hclicked). by left.
      * rewrite Hv in Hclicked.
        apply (initialIndex_of _ _ _ Hclicked). by right.
  - intros Hnone.
    assert (clickedComboValue values widgets = None) as Hclicked.
    { destruct widgets as [ws|]; [|done].
      apply clickedComboValue_none. intros w. by apply Hnone. }
    split; [done|]. unfold initialIndex. by rewrite Hclicked.
  - intros v Hv. split; [|by apply initialIndex_of].
    destruct (clickedComboValue_widget _ _ _ Hv)
      as (ws & w & -> & Hin & Htype & Hvalues & _).
    destruct (firstComboFor_exists values ws w Hin) as (i & w1 & Hfirst);
      [done|].
    exists ws, i, w1. split_and!; [done..|].
    by rewrite <-(clickedComboValue_first _ _ _ _ Hfirst).
  - intros Hnone. unfold initialIndex. by rewrite Hnone.
Qed.

Lemma initial_selection_witness :
  firstComboFor fruit [ {| w_type := "number"; w_values := None;
                           w_value := Some "3" |};
                        {| w_type := "combo"; w_values := Some fruit;
                           w_value := Some "banana" |};
                        {| w_type := "combo"; w_values := Some fruit;
                           w_value := Some "Cherry" |} ]
    1 {| w_type := "combo"; w_values := Some fruit;
         w_value := Some "banana" |} ∧
  clickedComboValue fruit twoCombos = Some "banana" ∧
  fruit !! Z.to_nat (initialIndex fruit twoCombos) = Some "banana" ∧
  ∀ j, j < Z.to_nat (initialIndex fruit twoCombos) →
       fruit !! j ≠ Some "banana".
Proof.
  assert (firstComboFor fruit
            [ {| w_type := "number"; w_values := None; w_value := Some "3" |};
              {| w_type := "combo"; w_values := Some fruit;
                 w_value := Some "banana" |};
              {| w_type := "combo"; w_values := Some fruit;
                 w_value := Some "Cherry" |} ]
            1 {| w_type := "combo"; w_values := Some fruit;
                 w_value := Some "banana" |}) as Hfirst.
  { unfold firstComboFor, comboFor. split_and!; [reflexivity..|].
    intros j w' Hj Hw'. destruct j as [|j]; [|lia].
    injection Hw' as <-. intros [Htype _]. discriminate Htype. }
  destruct (initial_selection fruit twoCombos)
    as (_ & _ & Hdecides & _).
  destruct (Hdecides _ 1 _ eq_refl Hfirst) as (Hclicked & Hindex & _).
  split; [exact Hfirst|]. split; [exact Hclicked|].
  apply (Hindex "banana" eq_refl).
  - discriminate.
  - apply (bool_decide_unpack _). vm_compute. exact I.
Defined.
